(** * Sanitizer examples

    A shallow embedding of [examples/sanitizer_examples.cpp]: sixteen
    routines, each performing one operation that a sanitizer reports, and an
    entry point that by default calls none of them.

    The routines are embedded over an abstract machine with guarded
    operations.

    - Memory is a list of byte blocks, one per local object or heap
      allocation.  Every access checks the pointer, the liveness of the
      block, the alignment, the byte range and (for reads) the initialisation
      of the bytes, and returns a [Fault] naming the violation when a check
      fails; a routine stops at its first fault, as the process does under a
      sanitizer that aborts.  The alignment checked is that of the address:
      a block records where it starts, modulo 4, and an object that needs
      byte alignment only may start anywhere.  Blocks of locals are not
      reclaimed when a routine returns.
    - [int] is a 32-bit two's-complement integer.  An overflowing increment
      wraps around and is recorded as a report; division and shift are
      guarded.
    - Standard output is a string.  The operands of a chain of [<<] are
      evaluated from left to right, each one printed before the next is
      evaluated.
    - Every memory operation is recorded in a trace before its checks run, so
      that the faulting operation is part of the operation sequence.
    - The two thread bodies are resumptions whose steps are interleaved by
      an explicit schedule.  The steps on [shared_counter] are its loads and
      stores.  A call of [push_back] is one step for a thread that runs
      alone; for two threads it is the sequence of reads and writes of the
      vector's header and buffers that the call is made of, each of them a
      guarded memory operation, so that a call can fail or undo the work of
      another. *)

From Stdlib Require Import ZArith List String Ascii Lia DecimalString.
From stdpp Require Import base list strings.

Open Scope Z_scope.

(** ** The [int] type *)

Module Int.

(** [int] is a 32-bit two's-complement integer. *)
Definition width : Z := 32.
Definition modulus : Z := 2 ^ width.

(** Modelled from the spec: [INT_MAX] is the macro of <climits>, which is
    not a file of the repository; it is the largest value of a 32-bit
    two's-complement [int].  [INT_MIN] is its counterpart. *)
Definition INT_MAX : Z := 2147483647.
Definition INT_MIN : Z := -2147483648.

Definition in_range (z : Z) : bool := (INT_MIN <=? z) && (z <=? INT_MAX).

(** Reduction modulo [2^32] into the signed range. *)
Definition wrap (z : Z) : Z := (z - INT_MIN) mod modulus + INT_MIN.

End Int.

(** ** Values in memory *)

Inductive ctype := TChar | TInt | TFloat.

Definition sizeof (t : ctype) : Z :=
  match t with TChar => 1 | TInt => 4 | TFloat => 4 end.

Definition alignof (t : ctype) : Z := sizeof t.

(** A byte of memory is either uninitialised or holds a value in [0, 256). *)
Definition mbyte := option Z.

(** Little-endian encoding, least significant byte first. *)
Fixpoint encode_bytes (n : nat) (v : Z) : list Z :=
  match n with
  | O => []
  | S n' => Z.land v 255 :: encode_bytes n' (Z.shiftr v 8)
  end.

Fixpoint decode_bytes (bs : list Z) : Z :=
  match bs with
  | [] => 0
  | b :: bs' => Z.lor b (Z.shiftl (decode_bytes bs') 8)
  end.

Definition encode (t : ctype) (v : Z) : list mbyte :=
  map Some (encode_bytes (Z.to_nat (sizeof t)) v).

(** A value of type [int] is read as a signed number; a [char] and the bit
    pattern of a [float] are read as they are stored. *)
Definition decode (t : ctype) (bs : list Z) : Z :=
  match t with
  | TInt => Int.wrap (decode_bytes bs)
  | TChar | TFloat => decode_bytes bs
  end.

(** All the bytes of a range, when every one of them is initialised. *)
Fixpoint all_init (bs : list mbyte) : option (list Z) :=
  match bs with
  | [] => Some []
  | Some b :: bs' => match all_init bs' with
                     | Some l => Some (b :: l)
                     | None => None
                     end
  | None :: _ => None
  end.

Definition uninit (n : Z) : list mbyte := repeat None (Z.to_nat n).

(** The bytes at offsets [off .. off + length new - 1] replaced by [new]. *)
Definition splice (bs : list mbyte) (off : nat) (new : list mbyte) : list mbyte :=
  take off bs ++ new ++ drop (off + length new)%nat bs.

(** ** Blocks and pointers *)

Inductive region := Stack | Heap.

(** [b_base] is the address of the first byte of the block as far as
    alignment goes: its residue modulo 4, the largest alignment. *)
Record block := mkBlockAt {
  b_base : Z;
  b_region : region;
  b_live : bool;
  b_bytes : list mbyte
}.

(** A block at an address that satisfies every alignment. *)
Definition mkBlock (r : region) (live : bool) (bytes : list mbyte) : block :=
  mkBlockAt 0 r live bytes.

Definition block_id := nat.

Inductive ptr :=
| Null
| Ptr (b : block_id) (off : Z).

Global Instance ptr_eq_dec : EqDecision ptr.
Proof. solve_decision. Defined.

(** [p + n] on a pointer to [t]. *)
Definition ptr_add (t : ctype) (p : ptr) (n : Z) : ptr :=
  match p with
  | Null => Null
  | Ptr b off => Ptr b (off + n * sizeof t)
  end.

(** A declared array [t a[len]]. *)
Record array := mkArray {
  a_block : block_id;
  a_elt : ctype;
  a_len : Z
}.

(** ** Violations *)

Inductive violation :=
| OutOfBounds (index len : Z)       (* index outside the declared array type *)
| OutOfRange (b : block_id) (off size : Z) (* bytes outside the block *)
| UseAfterFree (b : block_id)
| DoubleFree (b : block_id)
| InvalidFree (p : ptr)
| NullDeref
| WildPointer (b : block_id)
| UninitRead (p : ptr)
| Misaligned (addr align : Z)
| DivByZero (dividend : Z)
| DivOverflow
| ShiftOutOfBounds (count width : Z)
| SignedOverflow (v : Z).

(** ** Threads and the operation trace *)

Definition tid := nat.

(** The steps of the thread bodies.  [shared_counter++] is a load followed
    by a store of the incremented value; [push_back] is the call as a whole,
    one step for a thread that runs alone. *)
Inductive memop :=
| LoadCounter
| IncrStore (old : Z)
| PushBack (v : Z).

Inductive event :=
| EDecl (b : block_id) (size : Z)
| ENew (b : block_id) (size : Z)
| EDelete (p : ptr)
| ERead (t : ctype) (p : ptr)
| EWrite (t : ctype) (p : ptr)
| ESpawn (t : tid)
| EJoin (t : tid)
| EShared (t : tid) (op : memop).

(** ** Machine state *)

(** The storage of [shared_vec]: the buffer, the number of elements and the
    number of elements the buffer has room for. *)
Record vector_header := mkHeader {
  v_start : ptr;
  v_size : Z;
  v_cap : Z
}.

(** [shared_vec] is the value of the vector, its elements in order, and
    [vec_hdr] its storage.  [byte_base] is the address, modulo 4, at which
    the objects that need byte alignment only are placed.  [trace] holds the
    operations performed, the latest first. *)
Record state := mkState {
  blocks : list block;
  shared_counter : Z;
  shared_vec : list Z;
  vec_hdr : vector_header;
  byte_base : Z;
  out : string;
  trace : list event;
  reports : list violation
}.

(** The state at process start: [int shared_counter = 0;], an empty
    [shared_vec], no object and nothing printed. *)
Definition initial_state : state :=
  {| blocks := []; shared_counter := 0; shared_vec := [];
     vec_hdr := mkHeader Null 0 0; byte_base := 0;
     out := ""; trace := []; reports := [] |}.

Definition set_blocks (bl : list block) (s : state) : state :=
  {| blocks := bl; shared_counter := shared_counter s;
     shared_vec := shared_vec s; vec_hdr := vec_hdr s;
     byte_base := byte_base s; out := out s; trace := trace s;
     reports := reports s |}.

Definition set_shared_counter (c : Z) (s : state) : state :=
  {| blocks := blocks s; shared_counter := c;
     shared_vec := shared_vec s; vec_hdr := vec_hdr s;
     byte_base := byte_base s; out := out s; trace := trace s;
     reports := reports s |}.

Definition set_shared_vec (v : list Z) (s : state) : state :=
  {| blocks := blocks s; shared_counter := shared_counter s;
     shared_vec := v; vec_hdr := vec_hdr s; byte_base := byte_base s;
     out := out s; trace := trace s; reports := reports s |}.

Definition set_vec_hdr (h : vector_header) (s : state) : state :=
  {| blocks := blocks s; shared_counter := shared_counter s;
     shared_vec := shared_vec s; vec_hdr := h; byte_base := byte_base s;
     out := out s; trace := trace s; reports := reports s |}.

Definition set_out (o : string) (s : state) : state :=
  {| blocks := blocks s; shared_counter := shared_counter s;
     shared_vec := shared_vec s; vec_hdr := vec_hdr s;
     byte_base := byte_base s; out := o; trace := trace s;
     reports := reports s |}.

Definition log (e : event) (s : state) : state :=
  {| blocks := blocks s; shared_counter := shared_counter s;
     shared_vec := shared_vec s; vec_hdr := vec_hdr s;
     byte_base := byte_base s; out := out s; trace := e :: trace s;
     reports := reports s |}.

(** The operations performed so far, oldest first. *)
Definition history (s : state) : list event := rev (trace s).

Definition add_report (v : violation) (s : state) : state :=
  {| blocks := blocks s; shared_counter := shared_counter s;
     shared_vec := shared_vec s; vec_hdr := vec_hdr s;
     byte_base := byte_base s; out := out s; trace := trace s;
     reports := reports s ++ [v] |}.

(** ** The monad of routines: state and faults *)

Inductive outcome (A : Type) :=
| Ok (a : A)
| Fault (v : violation).

Arguments Ok {A} a.
Arguments Fault {A} v.

Definition M (A : Type) : Type := state -> outcome A * state.

Definition ret {A} (a : A) : M A := fun s => (Ok a, s).

Definition bind {A B} (m : M A) (k : A -> M B) : M B :=
  fun s => match m s with
           | (Ok a, s') => k a s'
           | (Fault v, s') => (Fault v, s')
           end.

Definition fault {A} (v : violation) : M A := fun s => (Fault v, s).

Definition modify (f : state -> state) : M unit := fun s => (Ok tt, f s).

Definition gets {A} (f : state -> A) : M A := fun s => (Ok (f s), s).

Declare Scope routine_scope.
Delimit Scope routine_scope with routine.
Notation "x <- m ;; k" := (bind m (fun x => k))
  (at level 100, m at next level, right associativity) : routine_scope.
Notation "m ;; k" := (bind m (fun _ => k))
  (at level 100, right associativity) : routine_scope.
Open Scope routine_scope.

(** ** Standard output *)

Definition nl : string := String (ascii_of_nat 10) EmptyString.

Definition string_of_Z (z : Z) : string := NilZero.string_of_int (Z.to_int z).

(** [std::cout << "text"] *)
Definition print (t : string) : M unit :=
  modify (fun s => set_out (out s +:+ t) s).

(** [std::cout << n] for an [int] *)
Definition print_int (n : Z) : M unit := print (string_of_Z n).

(** [std::cout << std::endl] *)
Definition endl : M unit := print nl.

(** ** Memory operations *)

(** A fresh block whose first byte is at an address congruent to [base]. *)
Definition alloc_at (base : Z) (r : region) (bytes : list mbyte) : M block_id :=
  fun s => (Ok (length (blocks s)),
            set_blocks (blocks s ++ [mkBlockAt base r true bytes]) s).

Definition alloc (r : region) (bytes : list mbyte) : M block_id :=
  alloc_at 0 r bytes.

(** Where an object of type [t] is placed: an [int] or a [float] at a
    multiple of 4, a [char] wherever the compiler puts it. *)
Definition base_of (t : ctype) : M Z :=
  match t with
  | TChar => gets byte_base
  | TInt | TFloat => ret 0
  end.

Definition size_of_bytes (bytes : list mbyte) : Z := Z.of_nat (length bytes).

(** A local object: a fresh stack block. *)
Definition decl_at (base : Z) (bytes : list mbyte) : M block_id :=
  b <- alloc_at base Stack bytes ;;
  modify (log (EDecl b (size_of_bytes bytes))) ;;
  ret b.

Definition decl (bytes : list mbyte) : M block_id := decl_at 0 bytes.

(** [t x;] *)
Definition decl_var (t : ctype) : M ptr :=
  base <- base_of t ;;
  b <- decl_at base (uninit (sizeof t)) ;; ret (Ptr b 0).

(** [t x = v;] *)
Definition decl_var_init (t : ctype) (v : Z) : M ptr :=
  base <- base_of t ;;
  b <- decl_at base (encode t v) ;; ret (Ptr b 0).

(** [t a[len];] *)
Definition decl_array (t : ctype) (len : Z) : M array :=
  base <- base_of t ;;
  b <- decl_at base (uninit (len * sizeof t)) ;; ret (mkArray b t len).

(** [t a[len] = { v0, v1, ... };] with [len] initialisers *)
Definition decl_array_init (t : ctype) (vs : list Z) : M array :=
  base <- base_of t ;;
  b <- decl_at base (concat (map (encode t) vs)) ;;
  ret (mkArray b t (Z.of_nat (length vs))).

(** [new int(v)] *)
Definition new_int (v : Z) : M ptr :=
  b <- alloc Heap (encode TInt v) ;;
  modify (log (ENew b (sizeof TInt))) ;;
  ret (Ptr b 0).

(** [new t[n]] *)
Definition new_array (t : ctype) (n : Z) : M ptr :=
  b <- alloc Heap (uninit (n * sizeof t)) ;;
  modify (log (ENew b (n * sizeof t))) ;;
  ret (Ptr b 0).

Definition kill (blk : block) : block :=
  mkBlockAt (b_base blk) (b_region blk) false (b_bytes blk).

(** [delete p]: the release is recorded, then checked. *)
Definition delete (p : ptr) : M unit :=
  modify (log (EDelete p)) ;;
  match p with
  | Null => ret tt
  | Ptr b off =>
      bl <- gets blocks ;;
      match bl !! b with
      | None => fault (InvalidFree p)
      | Some blk =>
          match b_region blk with
          | Stack => fault (InvalidFree p)
          | Heap =>
              if negb (off =? 0) then fault (InvalidFree p)
              else if negb (b_live blk) then fault (DoubleFree b)
              else modify (fun s => set_blocks (<[b := kill blk]> (blocks s)) s)
          end
      end
  end.

(** The checks of an access of type [t] through [p]; the result is the block,
    its contents and the byte offset.  The alignment is that of the address,
    the base of the block plus the offset. *)
Definition check_access (t : ctype) (p : ptr) : M (block_id * block * nat) :=
  match p with
  | Null => fault NullDeref
  | Ptr b off =>
      bl <- gets blocks ;;
      match bl !! b with
      | None => fault (WildPointer b)
      | Some blk =>
          if negb (b_live blk) then fault (UseAfterFree b)
          else if negb ((b_base blk + off) mod alignof t =? 0)
          then fault (Misaligned (b_base blk + off) (alignof t))
          else if (off <? 0) || (size_of_bytes (b_bytes blk) <? off + sizeof t)
          then fault (OutOfRange b off (sizeof t))
          else ret (b, blk, Z.to_nat off)
      end
  end.

Definition load_checked (t : ctype) (p : ptr) : M Z :=
  a <- check_access t p ;;
  let '(_, blk, off) := a in
  match all_init (take (Z.to_nat (sizeof t)) (drop off (b_bytes blk))) with
  | None => fault (UninitRead p)
  | Some bs => ret (decode t bs)
  end.

Definition store_checked (t : ctype) (p : ptr) (v : Z) : M unit :=
  a <- check_access t p ;;
  let '(b, blk, off) := a in
  let blk' := mkBlockAt (b_base blk) (b_region blk) (b_live blk)
                        (splice (b_bytes blk) off (encode t v)) in
  modify (fun s => set_blocks (<[b := blk']> (blocks s)) s).

(** [*p] read at type [t] *)
Definition load (t : ctype) (p : ptr) : M Z :=
  modify (log (ERead t p)) ;; load_checked t p.

(** [*p = v] at type [t] *)
Definition store (t : ctype) (p : ptr) (v : Z) : M unit :=
  modify (log (EWrite t p)) ;; store_checked t p v.

(** The address of element [i] of [a], inside the array or not. *)
Definition elem_ptr (a : array) (i : Z) : ptr :=
  Ptr (a_block a) (i * sizeof (a_elt a)).

Definition in_bounds (a : array) (i : Z) : bool :=
  (0 <=? i) && (i <? a_len a).

(** [a[i]] read: guarded indexing of a declared array. *)
Definition array_get (a : array) (i : Z) : M Z :=
  modify (log (ERead (a_elt a) (elem_ptr a i))) ;;
  if in_bounds a i then load_checked (a_elt a) (elem_ptr a i)
  else fault (OutOfBounds i (a_len a)).

(** [a[i] = v] *)
Definition array_set (a : array) (i : Z) (v : Z) : M unit :=
  modify (log (EWrite (a_elt a) (elem_ptr a i))) ;;
  if in_bounds a i then store_checked (a_elt a) (elem_ptr a i) v
  else fault (OutOfBounds i (a_len a)).

(** ** Guarded integer arithmetic *)

(** The value and the overflow flag of [x + 1] on [int]. *)
Definition incr_int (x : Z) : Z * bool :=
  if Int.in_range (x + 1) then (x + 1, false) else (Int.wrap (x + 1), true).

Definition report_overflow (x : Z) (ov : bool) (s : state) : state :=
  if ov then add_report (SignedOverflow x) s else s.

(** [x++] on an [int]: the result wraps around and the overflow is reported. *)
Definition int_incr (x : Z) : M Z :=
  let '(r, ov) := incr_int x in
  modify (report_overflow x ov) ;; ret r.

(** [x / y] on [int]: the quotient truncated towards zero. *)
Definition int_div (x y : Z) : M Z :=
  if y =? 0 then fault (DivByZero x)
  else if (x =? Int.INT_MIN) && (y =? -1) then fault DivOverflow
  else ret (Z.quot x y).

(** [x << n] on [int] *)
Definition int_shl (x n : Z) : M Z :=
  if (n <? 0) || (Int.width <=? n) then fault (ShiftOutOfBounds n Int.width)
  else ret (Int.wrap (Z.shiftl x n)).

(** ** AddressSanitizer examples *)

(** Example 1: buffer overflow (stack) *)
Definition asan_buffer_overflow : M unit :=
  arr <- decl_array TInt 10 ;;
  array_set arr 15 42 ;;
  print "Buffer overflow: " ;;
  v <- array_get arr 15 ;;
  print_int v ;;
  endl.

(** Example 2: use after free *)
Definition asan_use_after_free : M unit :=
  ptr <- new_int 42 ;;
  delete ptr ;;
  store TInt ptr 100 ;;
  print "Use after free: " ;;
  v <- load TInt ptr ;;
  print_int v ;;
  endl.

(** Example 3: double free *)
Definition asan_double_free : M unit :=
  ptr <- new_int 42 ;;
  delete ptr ;;
  delete ptr.

(** Example 4: memory leak; the [delete[]] is commented out in the source. *)
Definition asan_memory_leak : M unit :=
  ptr <- new_array TInt 1000 ;;
  ret tt.

(** ** ThreadSanitizer examples *)

(** A thread body is a resumption: it has returned, or it performs one
    atomic step on the shared state and continues with the value read. *)
Inductive thr :=
| Done
| Act (op : memop) (k : Z -> thr).

(** One step of thread [t].  Nothing orders the steps of different
    threads: a step reads or writes the global directly.  A whole call of
    [push_back] appends its element; this is its effect when no other thread
    runs during the call. *)
Definition exec (t : tid) (op : memop) (s : state) : Z * state :=
  let s := log (EShared t op) s in
  match op with
  | LoadCounter => (shared_counter s, s)
  | IncrStore old =>
      let '(r, ov) := incr_int old in
      (r, set_shared_counter r (report_overflow old ov s))
  | PushBack v => (0, set_shared_vec (shared_vec s ++ [v]) s)
  end.

(** [for (int i = lo; i < hi; ++i) body], followed by [rest]. *)
Fixpoint for_loop (n : nat) (i : Z) (body : Z -> thr -> thr) (rest : thr) : thr :=
  match n with
  | O => rest
  | S n' => body i (for_loop n' (i + 1) body rest)
  end.

Definition for_range (lo hi : Z) (body : Z -> thr -> thr) (rest : thr) : thr :=
  for_loop (Z.to_nat (hi - lo)) lo body rest.

(** [shared_counter++] *)
Definition incr_shared_counter (rest : thr) : thr :=
  Act LoadCounter (fun v => Act (IncrStore v) (fun _ => rest)).

(** Example 5: data race *)
Definition tsan_data_race_increment : thr :=
  for_range 0 100000 (fun _ rest => incr_shared_counter rest) Done.

(** Example 6: race condition on vector *)
Definition tsan_vector_race : thr :=
  for_range 0 1000 (fun i rest => Act (PushBack i) (fun _ => rest)) Done.

(** A thread running alone until it returns. *)
Fixpoint run_thr (t : tid) (body : thr) (s : state) : state :=
  match body with
  | Done => s
  | Act op k => let '(v, s') := exec t op s in run_thr t (k v) s'
  end.

(** At most [n] steps of a thread; the result is what is left of its body. *)
Fixpoint run_steps (n : nat) (t : tid) (body : thr) (s : state) : thr * state :=
  match n, body with
  | O, _ | _, Done => (body, s)
  | S n', Act op k => let '(v, s') := exec t op s in run_steps n' t (k v) s'
  end.

(** The caller is thread 0; the two threads it creates are 1 and 2. *)
Definition MAIN : tid := 0%nat.
Definition T1 : tid := 1%nat.
Definition T2 : tid := 2%nat.

(** The scheduler's choices: how many steps the first thread makes before the
    second is created, then which thread makes each next step ([true] for the
    first).  When the choices are used up the first thread runs until it
    returns, then the second. *)
Record schedule := mkSchedule {
  head_start : nat;
  picks : list bool
}.

(** Both threads run, as the scheduler picks, until the first has returned;
    the result is what is left of the second. *)
Fixpoint interleave (ps : list bool) (b1 b2 : thr) (s : state) : thr * state :=
  match ps with
  | [] => (b2, run_thr T1 b1 s)
  | true :: ps' =>
      match b1 with
      | Done => (b2, s)
      | Act op k => let '(v, s') := exec T1 op s in interleave ps' (k v) b2 s'
      end
  | false :: ps' =>
      match b2 with
      | Done => interleave ps' b1 b2 s
      | Act op k => let '(v, s') := exec T2 op s in interleave ps' b1 (k v) s'
      end
  end.

(** [std::thread t(f)]: the handle is the body still to run. *)
Definition spawn (t : tid) (f : thr) : M thr :=
  modify (log (ESpawn t)) ;; ret f.

(** The new thread runs while the caller goes on to its next statement. *)
Definition advance (n : nat) (t : tid) (body : thr) : M thr :=
  fun s => let '(body', s') := run_steps n t body s in (Ok body', s').

(** [t1.join()] while the second thread is running too. *)
Definition join_first (ps : list bool) (b1 b2 : thr) : M thr :=
  fun s => let '(b2', s') := interleave ps b1 b2 s in
           (Ok b2', log (EJoin T1) s').

(** [t2.join()] once the first thread has been joined. *)
Definition join_last (b2 : thr) : M unit :=
  modify (fun s => log (EJoin T2) (run_thr T2 b2 s)).

(** A read of [shared_counter] by the caller. *)
Definition read_shared_counter : M Z :=
  fun s => let '(v, s') := exec MAIN LoadCounter s in (Ok v, s').

Definition tsan_data_race_example (sch : schedule) : M unit :=
  t1 <- spawn T1 tsan_data_race_increment ;;
  t1 <- advance (head_start sch) T1 t1 ;;
  t2 <- spawn T2 tsan_data_race_increment ;;
  t2 <- join_first (picks sch) t1 t2 ;;
  join_last t2 ;;
  print "Counter value: " ;;
  c <- read_shared_counter ;;
  print_int c ;;
  endl.

(** *** [push_back] under two threads

    A call of [push_back] is one step only for a thread that runs alone.
    The call itself reads the vector's header, writes the element into the
    buffer and then updates the header; when the buffer is full it first
    obtains one twice as large, moves the elements over and releases the old
    one.  Two threads interleave between these steps, each working from the
    header it has read. *)

(** The steps of a thread that calls the library. *)
Inductive vop :=
| OShared (op : memop)               (* a step on the counter *)
| OBegin (v : Z)                     (* enter [push_back(v)], read the header *)
| OStore (p : ptr) (i v : Z)         (* construct [v] at [p + i] *)
| OMove (from to : ptr) (i : Z)      (* move element [i] to the new buffer *)
| OAlloc (len : Z)                   (* obtain a buffer for [len] elements *)
| OFree (p : ptr)                    (* release the old buffer *)
| OSetSize (n : Z)                   (* advance the end of the elements *)
| OPublish (p : ptr) (n cap : Z).    (* install the new buffer *)

(** What a step hands to the rest of the thread: a pointer and two numbers,
    the header for [OBegin], the new buffer for [OAlloc], the value read for
    [OShared]. *)
Definition vresult : Type := ptr * Z * Z.

Definition no_result : vresult := (Null, 0, 0).

Inductive vprog :=
| VDone
| VAct (o : vop) (k : vresult -> vprog).

(** The elements a reader of the vector finds: the first [v_size] [int]s of
    the buffer. *)
Fixpoint read_ints (n : nat) (bytes : list mbyte) : list Z :=
  match n with
  | O => []
  | S n' =>
      match all_init (take 4 bytes) with
      | Some bs =>
          if (length bs =? 4)%nat
          then decode TInt bs :: read_ints n' (drop 4 bytes)
          else []
      | None => []
      end
  end.

Definition vec_elems (h : vector_header) (bl : list block) : list Z :=
  match v_start h with
  | Null => []
  | Ptr b off =>
      match bl !! b with
      | Some blk =>
          if b_live blk
          then read_ints (Z.to_nat (v_size h)) (drop (Z.to_nat off) (b_bytes blk))
          else []
      | None => []
      end
  end.

(** The value of the vector as its storage gives it. *)
Definition sync_vec : M unit :=
  modify (fun s => set_shared_vec (vec_elems (vec_hdr s) (blocks s)) s).

Definition set_size (n : Z) (s : state) : state :=
  set_vec_hdr (mkHeader (v_start (vec_hdr s)) n (v_cap (vec_hdr s))) s.

(** One step of thread [t]; the accesses to the buffers are those of any
    other pointer, with the same checks. *)
Definition vexec (t : tid) (o : vop) : M vresult :=
  match o with
  | OShared op => fun s => let '(x, s') := exec t op s in (Ok (Null, x, 0), s')
  | OBegin v =>
      modify (log (EShared t (PushBack v))) ;;
      h <- gets vec_hdr ;;
      ret (v_start h, v_size h, v_cap h)
  | OStore p i v => store TInt (ptr_add TInt p i) v ;; ret no_result
  | OMove from to i =>
      x <- load TInt (ptr_add TInt from i) ;;
      store TInt (ptr_add TInt to i) x ;;
      ret no_result
  | OAlloc len => q <- new_array TInt len ;; ret (q, 0, 0)
  | OFree p => delete p ;; ret no_result
  | OSetSize n => modify (set_size n) ;; ret no_result
  | OPublish p n cap => modify (set_vec_hdr (mkHeader p n cap)) ;; ret no_result
  end.

(** Elements [i], [i + 1], ... ([n] of them) are moved to the new buffer. *)
Fixpoint vcopy (n : nat) (i : Z) (from to : ptr) (rest : vprog) : vprog :=
  match n with
  | O => rest
  | S n' => VAct (OMove from to i) (fun _ => vcopy n' (i + 1) from to rest)
  end.

(** [shared_vec.push_back(v)], followed by [rest]. *)
Definition push_back_steps (v : Z) (rest : vprog) : vprog :=
  VAct (OBegin v) (fun '(start, size, cap) =>
    if negb (size =? cap) then
      VAct (OStore start size v) (fun _ =>
      VAct (OSetSize (size + 1)) (fun _ => rest))
    else
      let len := size + Z.max size 1 in
      VAct (OAlloc len) (fun '(new, _, _) =>
      VAct (OStore new size v) (fun _ =>
      vcopy (Z.to_nat size) 0 start new
        (let publish := VAct (OPublish new (size + 1) len) (fun _ => rest) in
         match start with
         | Null => publish
         | Ptr _ _ => VAct (OFree start) (fun _ => publish)
         end)))).

(** A thread body with its calls of [push_back] written out in steps. *)
Fixpoint expand (body : thr) : vprog :=
  match body with
  | Done => VDone
  | Act (PushBack v) k => push_back_steps v (expand (k 0))
  | Act op k => VAct (OShared op) (fun '(_, x, _) => expand (k x))
  end.

(** A thread running alone until it returns or a step fails. *)
Fixpoint vrun (t : tid) (p : vprog) (s : state) : outcome unit * state :=
  match p with
  | VDone => (Ok tt, s)
  | VAct o k =>
      match vexec t o s with
      | (Ok r, s') => vrun t (k r) s'
      | (Fault e, s') => (Fault e, s')
      end
  end.

(** At most [n] steps of a thread. *)
Fixpoint vrun_steps (n : nat) (t : tid) (p : vprog) (s : state)
  : outcome vprog * state :=
  match n, p with
  | O, _ | _, VDone => (Ok p, s)
  | S n', VAct o k =>
      match vexec t o s with
      | (Ok r, s') => vrun_steps n' t (k r) s'
      | (Fault e, s') => (Fault e, s')
      end
  end.

(** Both threads run, as the scheduler picks, until the first has returned
    or a step fails, which ends the process. *)
Fixpoint vinterleave (ps : list bool) (p1 p2 : vprog) (s : state)
  : outcome vprog * state :=
  match ps with
  | [] =>
      match vrun T1 p1 s with
      | (Ok _, s') => (Ok p2, s')
      | (Fault e, s') => (Fault e, s')
      end
  | true :: ps' =>
      match p1 with
      | VDone => (Ok p2, s)
      | VAct o k =>
          match vexec T1 o s with
          | (Ok r, s') => vinterleave ps' (k r) p2 s'
          | (Fault e, s') => (Fault e, s')
          end
      end
  | false :: ps' =>
      match p2 with
      | VDone => vinterleave ps' p1 p2 s
      | VAct o k =>
          match vexec T2 o s with
          | (Ok r, s') => vinterleave ps' p1 (k r) s'
          | (Fault e, s') => (Fault e, s')
          end
      end
  end.

Definition vspawn (t : tid) (f : thr) : M vprog :=
  modify (log (ESpawn t)) ;; ret (expand f).

Definition vadvance (n : nat) (t : tid) (p : vprog) : M vprog :=
  vrun_steps n t p.

(** [t1.join()] while the second thread is running too. *)
Definition vjoin_first (ps : list bool) (p1 p2 : vprog) : M vprog :=
  p2' <- vinterleave ps p1 p2 ;;
  modify (log (EJoin T1)) ;;
  ret p2'.

(** [t2.join()]; no thread is inside a call any more, and the value of the
    vector is the one its storage holds. *)
Definition vjoin_last (p2 : vprog) : M unit :=
  vrun T2 p2 ;;
  modify (log (EJoin T2)) ;;
  sync_vec.

Definition tsan_vector_race_example (sch : schedule) : M unit :=
  t1 <- vspawn T1 tsan_vector_race ;;
  t1 <- vadvance (head_start sch) T1 t1 ;;
  t2 <- vspawn T2 tsan_vector_race ;;
  t2 <- vjoin_first (picks sch) t1 t2 ;;
  vjoin_last t2.

(** ** MemorySanitizer examples *)

(** Example 7: uninitialised memory read *)
Definition msan_uninitialized_read : M unit :=
  x <- decl_var TInt ;;
  v <- load TInt x ;;
  if v >? 0 then
    print "Uninitialized read: " ;;
    v' <- load TInt x ;;
    print_int v' ;;
    endl
  else ret tt.

(** Example 8: uninitialised array *)
Definition msan_uninitialized_array : M unit :=
  arr <- decl_array TInt 10 ;;
  print "Uninitialized array: " ;;
  v <- array_get arr 0 ;;
  print_int v ;;
  endl.

(** Example 9: uninitialised struct member.
    [struct MyStruct { int value; char name[10]; }]: [value] is at offset 0,
    [name] at offset 4, and the size is rounded up to the alignment of
    [int]. *)
Module MyStruct.
Definition value_offset : Z := 0.
Definition name_offset : Z := sizeof TInt.
Definition size : Z := 16.
Definition value (s : block_id) : ptr := Ptr s value_offset.
End MyStruct.

Definition msan_uninitialized_struct : M unit :=
  s <- decl (uninit MyStruct.size) ;;
  print "Uninitialized struct: " ;;
  v <- load TInt (MyStruct.value s) ;;
  print_int v ;;
  endl.

(** ** UndefinedBehaviorSanitizer examples *)

(** Example 10: signed integer overflow *)
Definition ubsan_signed_overflow : M unit :=
  let x := Int.INT_MAX in
  x <- int_incr x ;;
  print "Signed overflow: " ;;
  print_int x ;;
  endl.

(** Example 11: null pointer dereference *)
Definition ubsan_null_pointer : M unit :=
  let ptr := Null in
  store TInt ptr 42.

(** Example 12: division by zero *)
Definition ubsan_division_by_zero : M unit :=
  let x := 10 in
  let y := 0 in
  result <- int_div x y ;;
  print "Division: " ;;
  print_int result ;;
  endl.

(** Example 13: shift out of bounds *)
Definition ubsan_shift_out_of_bounds : M unit :=
  let x := 1 in
  let shift := 100 in
  result <- int_shl x shift ;;
  print "Shift: " ;;
  print_int result ;;
  endl.

(** Example 14: array index out of bounds *)
Definition ubsan_array_bounds : M unit :=
  arr <- decl_array_init TInt [1; 2; 3; 4; 5] ;;
  let index := 10 in
  value <- array_get arr index ;;
  print "Array access: " ;;
  print_int value ;;
  endl.

(** The bytes of a string literal with its terminating zero. *)
Definition c_string (t : string) : list Z :=
  map (fun c => Z.of_nat (nat_of_ascii c)) (list_ascii_of_string t) ++ [0].

(** Example 15: misaligned pointer access *)
Definition ubsan_misaligned_pointer : M unit :=
  data <- decl_array_init TChar (c_string "123456789") ;;
  let ptr := ptr_add TChar (elem_ptr data 0) 1 in
  store TInt ptr 42.

(** The bit pattern of the [float] literal [3.14f] (IEEE 754 binary32). *)
Definition float_3_14 : Z := 0x4048F5C3.

(** Example 16: invalid cast *)
Definition ubsan_invalid_cast : M unit :=
  f <- decl_var_init TFloat float_3_14 ;;
  let ptr := f in
  print "Invalid cast: " ;;
  v <- load TInt ptr ;;
  print_int v ;;
  endl.

(** ** Entry point *)

Definition banner : string :=
  "Sanitizer Examples" +:+ nl +:+ "==================" +:+ nl +:+ nl.

Definition trailer : string :=
  "No examples executed. Uncomment examples in main() to test." +:+ nl.

(** [main] as it is in the source: every call of a routine is commented out. *)
Definition main : M Z :=
  print ("Sanitizer Examples" +:+ nl) ;;
  print ("==================" +:+ nl +:+ nl) ;;
  print ("No examples executed. Uncomment examples in main() to test." +:+ nl) ;;
  ret 0.

(** ** The catalog *)

Inductive category :=
| Addressing
| Threading
| UninitializedMemory
| UndefinedBehavior.

(** One entry per call in [main], in the order of the source. *)
Inductive routine :=
| R_asan_buffer_overflow
| R_asan_use_after_free
| R_asan_double_free
| R_asan_memory_leak
| R_tsan_data_race_example
| R_tsan_vector_race_example
| R_msan_uninitialized_read
| R_msan_uninitialized_array
| R_msan_uninitialized_struct
| R_ubsan_signed_overflow
| R_ubsan_null_pointer
| R_ubsan_division_by_zero
| R_ubsan_shift_out_of_bounds
| R_ubsan_array_bounds
| R_ubsan_misaligned_pointer
| R_ubsan_invalid_cast.

Definition catalog : list routine :=
  [ R_asan_buffer_overflow; R_asan_use_after_free; R_asan_double_free;
    R_asan_memory_leak;
    R_tsan_data_race_example; R_tsan_vector_race_example;
    R_msan_uninitialized_read; R_msan_uninitialized_array;
    R_msan_uninitialized_struct;
    R_ubsan_signed_overflow; R_ubsan_null_pointer; R_ubsan_division_by_zero;
    R_ubsan_shift_out_of_bounds; R_ubsan_array_bounds;
    R_ubsan_misaligned_pointer; R_ubsan_invalid_cast ].

(** The section of the source file (and of [main]) a routine stands in. *)
Definition category_of (r : routine) : category :=
  match r with
  | R_asan_buffer_overflow | R_asan_use_after_free
  | R_asan_double_free | R_asan_memory_leak => Addressing
  | R_tsan_data_race_example | R_tsan_vector_race_example => Threading
  | R_msan_uninitialized_read | R_msan_uninitialized_array
  | R_msan_uninitialized_struct => UninitializedMemory
  | R_ubsan_signed_overflow | R_ubsan_null_pointer
  | R_ubsan_division_by_zero | R_ubsan_shift_out_of_bounds
  | R_ubsan_array_bounds | R_ubsan_misaligned_pointer
  | R_ubsan_invalid_cast => UndefinedBehavior
  end.

Global Instance category_eq_dec : EqDecision category.
Proof. solve_decision. Defined.

Global Instance routine_eq_dec : EqDecision routine.
Proof. solve_decision. Defined.

Definition category_eqb (c d : category) : bool :=
  match c, d with
  | Addressing, Addressing | Threading, Threading
  | UninitializedMemory, UninitializedMemory
  | UndefinedBehavior, UndefinedBehavior => true
  | _, _ => false
  end.

Definition categories : list category :=
  [Addressing; Threading; UninitializedMemory; UndefinedBehavior].

Definition routines_in (c : category) : list routine :=
  filter (fun r => category_eqb (category_of r) c = true) catalog.

Definition category_size (c : category) : Z :=
  Z.of_nat (length (routines_in c)).

Definition catalog_size : Z := Z.of_nat (length catalog).

(** The function a catalog entry names. *)
Definition call (r : routine) (sch : schedule) : M unit :=
  match r with
  | R_asan_buffer_overflow => asan_buffer_overflow
  | R_asan_use_after_free => asan_use_after_free
  | R_asan_double_free => asan_double_free
  | R_asan_memory_leak => asan_memory_leak
  | R_tsan_data_race_example => tsan_data_race_example sch
  | R_tsan_vector_race_example => tsan_vector_race_example sch
  | R_msan_uninitialized_read => msan_uninitialized_read
  | R_msan_uninitialized_array => msan_uninitialized_array
  | R_msan_uninitialized_struct => msan_uninitialized_struct
  | R_ubsan_signed_overflow => ubsan_signed_overflow
  | R_ubsan_null_pointer => ubsan_null_pointer
  | R_ubsan_division_by_zero => ubsan_division_by_zero
  | R_ubsan_shift_out_of_bounds => ubsan_shift_out_of_bounds
  | R_ubsan_array_bounds => ubsan_array_bounds
  | R_ubsan_misaligned_pointer => ubsan_misaligned_pointer
  | R_ubsan_invalid_cast => ubsan_invalid_cast
  end.

(** The operations a computation adds to the trace, oldest first. *)
Definition events_of {A} (m : M A) (s : state) : list event :=
  drop (length (history s)) (history (snd (m s))).

(** The releases among a list of operations. *)
Definition releases (evs : list event) : list ptr :=
  flat_map (fun e => match e with EDelete p => [p] | _ => [] end) evs.

(** Whether an operation writes into block [b]. *)
Definition writes_block (b : block_id) (e : event) : bool :=
  match e with
  | EWrite _ (Ptr b' _) => Nat.eqb b b'
  | _ => false
  end.

(** The operations that come before the first read through [p]. *)
Fixpoint before_read (p : ptr) (evs : list event) : list event :=
  match evs with
  | [] => []
  | ERead t q :: evs' =>
      if bool_decide (p = q) then [] else ERead t q :: before_read p evs'
  | e :: evs' => e :: before_read p evs'
  end.

(** Whether an operation reads through [p]. *)
Definition reads_ptr (p : ptr) (e : event) : bool :=
  match e with
  | ERead _ q => bool_decide (p = q)
  | _ => false
  end.

(** A state with other values in the two globals. *)
Definition with_shared (c : Z) (v : list Z) (s : state) : state :=
  set_shared_counter c (set_shared_vec v s).

(** A computation that neither reads nor writes the two globals: with other
    values in them it has the same result and does the same to the rest of
    the state, and the values are still there afterwards. *)
Definition ignores_shared {A} (m : M A) : Prop :=
  forall (s : state) (c : Z) (v : list Z),
    m (with_shared c v s) = (fst (m s), with_shared c v (snd (m s))).

(** The kind of an atomic step: a plain load, a plain store, an append. *)
Inductive opkind := KLoad | KStore | KPush.

Definition kind_of (op : memop) : opkind :=
  match op with
  | LoadCounter => KLoad
  | IncrStore _ => KStore
  | PushBack _ => KPush
  end.

Global Instance opkind_eq_dec : EqDecision opkind.
Proof. solve_decision. Defined.

(** How many steps of kind [k] a list of steps holds. *)
Definition count_kind (k : opkind) (l : list opkind) : Z :=
  Z.of_nat (length (filter (fun x => x = k) l)).

(** The steps a thread body makes, whatever values its loads return. *)
Inductive shape : thr -> list opkind -> Prop :=
| shape_done : shape Done []
| shape_act (op : memop) (k : Z -> thr) (l : list opkind) :
    (forall v : Z, shape (k v) l) -> shape (Act op k) (kind_of op :: l).

(** Steps on the globals, each with the thread that makes it. *)
Definition shared_events (acts : list (tid * memop)) : list event :=
  map (fun a => EShared (fst a) (snd a)) acts.

Definition kinds_by (t : tid) (acts : list (tid * memop)) : list opkind :=
  map (fun a => kind_of (snd a)) (filter (fun a => fst a = t) acts).

Definition spawns (evs : list event) : list tid :=
  flat_map (fun e => match e with ESpawn t => [t] | _ => [] end) evs.

Definition joins (evs : list event) : list tid :=
  flat_map (fun e => match e with EJoin t => [t] | _ => [] end) evs.

(** [n] times the steps of one [shared_counter++]. *)
Definition increments (n : Z) : list opkind :=
  concat (replicate (Z.to_nat n) [KLoad; KStore]).

(** [n] appends. *)
Definition appends (n : Z) : list opkind := replicate (Z.to_nat n) KPush.

(** The state when two threads running [f] have been created and joined. *)
Definition after_threads (f : thr) (sch : schedule) (s : state) : state :=
  let r1 := run_steps (head_start sch) T1 f (log (ESpawn T1) s) in
  let r2 := interleave (picks sch) (fst r1) f (log (ESpawn T2) (snd r1)) in
  log (EJoin T2) (run_thr T2 (fst r2) (log (EJoin T1) (snd r2))).

(** The schedule that lets the first thread return before the second
    starts, and one that lets both threads load before either stores. *)
Definition sequential_schedule : schedule := mkSchedule 0 [].
Definition racy_schedule : schedule := mkSchedule 1 [false].

(** The text [main] writes, as one literal. *)
Definition main_output : string :=
  "Sanitizer Examples
==================

No examples executed. Uncomment examples in main() to test.
".

(** ** What a routine without threads does *)

(** The result of a routine and what it adds to the state: the blocks it
    creates (as they are when it stops), the operations it performs, the
    text it prints and the reports it causes. *)
Record effect := mkEffect {
  e_result : outcome unit;
  e_blocks : list block;
  e_events : list event;
  e_text : string;
  e_reports : list violation
}.

Definition apply_effect (e : effect) (s : state) : state :=
  {| blocks := blocks s ++ e_blocks e;
     shared_counter := shared_counter s;
     shared_vec := shared_vec s;
     vec_hdr := vec_hdr s;
     byte_base := byte_base s;
     out := out s +:+ e_text e;
     trace := rev (e_events e) ++ trace s;
     reports := reports s ++ e_reports e |}.

(** The effect of each routine without threads that stops at its first
    violation or has none, when [b] is the number of blocks that exist at its
    start and [base] the address, modulo 4, of a [char] array.
    [ubsan_signed_overflow] goes on after its overflow and has no entry. *)
Definition sequential_effect (r : routine) (b : block_id) (base : Z)
  : option effect :=
  let p := Ptr b 0 in
  match r with
  | R_asan_buffer_overflow =>
      Some (mkEffect (Fault (OutOfBounds 15 10))
              [mkBlock Stack true (uninit 40)]
              [EDecl b 40; EWrite TInt (Ptr b 60)] "" [])
  | R_asan_use_after_free =>
      Some (mkEffect (Fault (UseAfterFree b))
              [mkBlock Heap false (encode TInt 42)]
              [ENew b 4; EDelete p; EWrite TInt p] "" [])
  | R_asan_double_free =>
      Some (mkEffect (Fault (DoubleFree b))
              [mkBlock Heap false (encode TInt 42)]
              [ENew b 4; EDelete p; EDelete p] "" [])
  | R_asan_memory_leak =>
      Some (mkEffect (Ok tt)
              [mkBlock Heap true (uninit 4000)]
              [ENew b 4000] "" [])
  | R_tsan_data_race_example | R_tsan_vector_race_example => None
  | R_msan_uninitialized_read =>
      Some (mkEffect (Fault (UninitRead p))
              [mkBlock Stack true (uninit 4)]
              [EDecl b 4; ERead TInt p] "" [])
  | R_msan_uninitialized_array =>
      Some (mkEffect (Fault (UninitRead p))
              [mkBlock Stack true (uninit 40)]
              [EDecl b 40; ERead TInt p] "Uninitialized array: " [])
  | R_msan_uninitialized_struct =>
      Some (mkEffect (Fault (UninitRead p))
              [mkBlock Stack true (uninit 16)]
              [EDecl b 16; ERead TInt p] "Uninitialized struct: " [])
  | R_ubsan_signed_overflow => None
  | R_ubsan_null_pointer =>
      Some (mkEffect (Fault NullDeref) [] [EWrite TInt Null] "" [])
  | R_ubsan_division_by_zero =>
      Some (mkEffect (Fault (DivByZero 10)) [] [] "" [])
  | R_ubsan_shift_out_of_bounds =>
      Some (mkEffect (Fault (ShiftOutOfBounds 100 32)) [] [] "" [])
  | R_ubsan_array_bounds =>
      Some (mkEffect (Fault (OutOfBounds 10 5))
              [mkBlock Stack true (concat (map (encode TInt) [1; 2; 3; 4; 5]))]
              [EDecl b 20; ERead TInt (Ptr b 40)] "" [])
  | R_ubsan_misaligned_pointer =>
      let data := map Some (c_string "123456789") in
      if (base + 1) mod 4 =? 0
      then Some (mkEffect (Ok tt)
                   [mkBlockAt base Stack true (splice data 1 (encode TInt 42))]
                   [EDecl b 10; EWrite TInt (Ptr b 1)] "" [])
      else Some (mkEffect (Fault (Misaligned (base + 1) 4))
                   [mkBlockAt base Stack true data]
                   [EDecl b 10; EWrite TInt (Ptr b 1)] "" [])
  | R_ubsan_invalid_cast =>
      Some (mkEffect (Ok tt)
              [mkBlock Stack true (encode TFloat float_3_14)]
              [EDecl b 4; ERead TInt p]
              ("Invalid cast: 1078523331" +:+ nl) [])
  end.

(** The heap blocks that have not been released. *)
Definition is_live_heap (blk : block) : bool :=
  match b_region blk with
  | Heap => b_live blk
  | Stack => false
  end.

Definition live_heap (bl : list block) : list block :=
  filter (fun blk => is_live_heap blk = true) bl.

(** ** Invariants of the thread bodies *)

(** A thread in the loop of [tsan_data_race_increment]: the stores it has
    still to make and, between a load and its store, the value loaded. *)
Inductive incr_thread : thr -> nat -> option Z -> Prop :=
| it_done : incr_thread Done 0 None
| it_load (n : nat) (k : Z -> thr) :
    (forall v : Z, incr_thread (k v) (S n) (Some v)) ->
    incr_thread (Act LoadCounter k) (S n) None
| it_store (n : nat) (v : Z) (k : Z -> thr) :
    (forall u : Z, incr_thread (k u) n None) ->
    incr_thread (Act (IncrStore v) k) (S n) (Some v).

(** A loaded value [p] of a thread with [n] stores to make, when [rest]
    stores are to be made in all, each thread makes [N] and the counter
    started at [c0]. *)
Definition pending_ok (N c0 rest : Z) (n : nat) (p : option Z) : Prop :=
  match p with
  | None => True
  | Some v =>
      c0 <= v /\ v + rest <= c0 + 2 * N /\ (Z.of_nat n < N -> c0 + 1 <= v)
  end.

(** What holds of the counter while two threads increment it [N] times
    each, from the value [c0] and with the reports [R0]. *)
Definition counter_inv (N c0 : Z) (R0 : list violation) (v0 : list Z)
    (b1 b2 : thr) (s : state) : Prop :=
  exists (n1 : nat) (p1 : option Z) (n2 : nat) (p2 : option Z),
    incr_thread b1 n1 p1 /\ incr_thread b2 n2 p2 /\
    Z.of_nat n1 <= N /\ Z.of_nat n2 <= N /\
    c0 <= shared_counter s /\
    shared_counter s + (Z.of_nat n1 + Z.of_nat n2) <= c0 + 2 * N /\
    (Z.of_nat n1 + Z.of_nat n2 < 2 * N -> c0 + 1 <= shared_counter s) /\
    (Z.of_nat n1 + Z.of_nat n2 = 0 -> c0 + 2 <= shared_counter s) /\
    pending_ok N c0 (Z.of_nat n1 + Z.of_nat n2) n1 p1 /\
    pending_ok N c0 (Z.of_nat n1 + Z.of_nat n2) n2 p2 /\
    reports s = R0 /\ shared_vec s = v0.

(** The values thread [t] passes to [push_back], in the order of the calls. *)
Definition pushes_by (t : tid) (evs : list event) : list Z :=
  flat_map (fun e => match e with
                     | EShared t' (PushBack v) => if decide (t' = t) then [v] else []
                     | _ => []
                     end) evs.

(** The calls of [push_back] that a step starts. *)
Definition op_calls (o : vop) : list Z :=
  match o with
  | OBegin v | OShared (PushBack v) => [v]
  | _ => []
  end.

(** The calls of [push_back] a thread makes, in order, whatever its steps
    return. *)
Inductive vcalls : vprog -> list Z -> Prop :=
| vcalls_done : vcalls VDone []
| vcalls_act (o : vop) (k : vresult -> vprog) (l : list Z) :
    (forall r : vresult, vcalls (k r) l) -> vcalls (VAct o k) (op_calls o ++ l).

(** Whether an operation can be a step of thread [t]: an allocation, a
    release, a read or a write of memory, or a step on the globals that [t]
    makes. *)
Definition step_of (t : tid) (e : event) : bool :=
  match e with
  | ENew _ _ | EDelete _ | ERead _ _ | EWrite _ _ => true
  | EShared t' _ => Nat.eqb t' t
  | EDecl _ _ | ESpawn _ | EJoin _ => false
  end.

(** A state in which the [char] arrays are placed at [base]. *)
Definition set_byte_base (base : Z) (s : state) : state :=
  {| blocks := blocks s; shared_counter := shared_counter s;
     shared_vec := shared_vec s; vec_hdr := vec_hdr s; byte_base := base;
     out := out s; trace := trace s; reports := reports s |}.

(** A schedule under which the second thread releases the buffer that the
    first is about to copy from. *)
Definition crash_schedule : schedule := mkSchedule 6 (replicate 5 false).

(** What holds of the counter while the second thread increments it alone,
    the first having returned: with [n] stores to make, the counter (or the
    value loaded) is [n] below [K]. *)
Definition alone_inv (N K : Z) (R0 : list violation) (b1 b2 : thr) (s : state) : Prop :=
  b1 = Done /\
  exists (n : nat) (p : option Z),
    incr_thread b2 n p /\ Z.of_nat n <= N /\
    match p with
    | None => shared_counter s + Z.of_nat n = K
    | Some v => v + Z.of_nat n = K
    end /\
    reports s = R0.

(** ** The storage of the vector *)

(** The bytes of a sequence of [int]s. *)
Definition ints (l : list Z) : list mbyte := concat (map (encode TInt) l).

(** The vector holds the elements [l], each of them an [int]: its header
    counts them, and it is empty with no buffer, or it points to the start
    of a live heap block that holds the elements followed by the room that
    is left. *)
Definition holds (l : list Z) (s : state) : Prop :=
  Forall (fun v => Int.in_range v = true) l /\
  v_size (vec_hdr s) = Z.of_nat (length l) /\
  match v_start (vec_hdr s) with
  | Null => v_cap (vec_hdr s) = 0 /\ l = []
  | Ptr b off =>
      off = 0 /\
      exists room : nat,
        v_cap (vec_hdr s) = Z.of_nat (length l + room) /\
        blocks s !! b =
          Some (mkBlock Heap true (ints l ++ repeat None (4 * room)))
  end.

(** A state with another trace. *)
Definition set_trace (tr : list event) (s : state) : state :=
  {| blocks := blocks s; shared_counter := shared_counter s;
     shared_vec := shared_vec s; vec_hdr := vec_hdr s;
     byte_base := byte_base s; out := out s; trace := tr;
     reports := reports s |}.

(** * Properties *)

(** ** Blocks *)

Lemma lookup_fresh (l : list block) (x : block) :
  (l ++ [x]) !! length l = Some x.
Proof. by apply list_lookup_middle. Qed.

Lemma insert_fresh (l : list block) (x y : block) :
  <[length l := y]> (l ++ [x]) = l ++ [y].
Proof.
  rewrite insert_app_r_alt by lia.
  by rewrite Nat.sub_diag.
Qed.

Lemma history_log (e : event) (s : state) :
  history (log e s) = history s ++ [e].
Proof. reflexivity. Qed.

Lemma append_assoc (a b c : string) : (a +:+ b) +:+ c = a +:+ (b +:+ c).
Proof.
  induction a as [|x a IH]; [reflexivity |].
  change (String x ((a +:+ b) +:+ c) = String x (a +:+ (b +:+ c))).
  by rewrite IH.
Qed.

Lemma events_of_history {A} (m : M A) (s : state) (evs : list event) :
  history (snd (m s)) = history s ++ evs -> events_of m s = evs.
Proof. intros H. unfold events_of. rewrite H. apply drop_app_length. Qed.

Ltac step :=
  cbn -[Z.mul Z.add Z.modulo uninit];
  rewrite ?lookup_fresh, ?insert_fresh.

Lemma history_set_out (o : string) (s : state) :
  history (set_out o s) = history s.
Proof. reflexivity. Qed.

Lemma history_set_blocks (bl : list block) (s : state) :
  history (set_blocks bl s) = history s.
Proof. reflexivity. Qed.

Lemma history_add_report (v : violation) (s : state) :
  history (add_report v s) = history s.
Proof. reflexivity. Qed.

Lemma history_set_shared_counter (c : Z) (s : state) :
  history (set_shared_counter c s) = history s.
Proof. reflexivity. Qed.

Lemma history_set_shared_vec (v : list Z) (s : state) :
  history (set_shared_vec v s) = history s.
Proof. reflexivity. Qed.

Create Rewrite HintDb hist.
#[local] Hint Rewrite history_log history_set_out history_set_blocks
  history_add_report history_set_shared_counter history_set_shared_vec : hist.

Ltac solve_history :=
  cbn [snd]; autorewrite with hist; rewrite <- ?app_assoc; reflexivity.

Ltac unfold_ops :=
  unfold new_int, new_array, decl_array, decl_array_init, decl_var,
    decl_var_init, decl, decl_at, base_of, delete, load, store, array_get,
    array_set, load_checked, store_checked, check_access, int_div, int_shl,
    int_incr, print_int, endl, print, bind, alloc, alloc_at, modify, gets,
    ret, fault.

(** ** The entry point *)

Lemma main_output_eq : main_output = banner +:+ trailer.
Proof. reflexivity. Qed.

Lemma main_run (s : state) :
  main s = (Ok 0, set_out (out s +:+ main_output) s).
Proof.
  unfold main, print, bind, modify, ret, set_out. cbn [out].
  by rewrite !append_assoc.
Qed.

(** C1: with no routine enabled the entry point returns exit status 0 and
    writes the banner followed by the trailer, the same constant text from
    every start state; started on an empty output stream the whole output is
    that text, and nothing else of the state is changed. *)
Theorem main_default_output :
  (forall s : state,
      fst (main s) = Ok 0 /\
      out (snd (main s)) = out s +:+ main_output /\
      blocks (snd (main s)) = blocks s /\
      history (snd (main s)) = history s /\
      reports (snd (main s)) = reports s) /\
  main_output = banner +:+ trailer /\
  out (snd (main initial_state)) = main_output.
Proof.
  split; [| split; reflexivity].
  intros s. by rewrite main_run.
Qed.

(** ** The catalog *)

Lemma category_sizes :
  category_size Addressing = 4 /\
  category_size Threading = 2 /\
  category_size UninitializedMemory = 3 /\
  category_size UndefinedBehavior = 7.
Proof. repeat split; reflexivity. Qed.

(** C2, as the claim states it, fails: the threading category has two
    routines and the undefined-behaviour category seven. *)
Lemma catalog_sizes_not_3_to_5 :
  ~ (forall c : category, 3 <= category_size c <= 5).
Proof.
  intros H. destruct (H Threading) as [H3 _].
  vm_compute in H3. by apply H3.
Qed.

(** C2 (amended): the catalog has four categories and sixteen routines, every
    routine is in exactly one category, and the categories hold 4, 2, 3 and 7
    routines: a quarter of the catalog for the addressing category only, an
    eighth, three sixteenths and seven sixteenths for the others. *)
Theorem catalog_shape :
  length categories = 4%nat /\
  NoDup categories /\
  (forall c : category, c ∈ categories) /\
  catalog_size = 16 /\
  NoDup catalog /\
  (forall r : routine, r ∈ catalog) /\
  category_size Addressing = 4 /\
  category_size Threading = 2 /\
  category_size UninitializedMemory = 3 /\
  category_size UndefinedBehavior = 7 /\
  (forall c : category, 2 <= category_size c <= 7) /\
  4 * category_size Addressing = catalog_size /\
  8 * category_size Threading = catalog_size /\
  16 * category_size UninitializedMemory = 3 * catalog_size /\
  16 * category_size UndefinedBehavior = 7 * catalog_size.
Proof.
  repeat split; try reflexivity.
  - by apply (bool_decide_unpack _).
  - intros []; by apply (bool_decide_unpack _).
  - by apply (bool_decide_unpack _).
  - intros []; by apply (bool_decide_unpack _).
  - destruct c; vm_compute; discriminate.
  - destruct c; vm_compute; discriminate.
Qed.

(** ** The addressing routines *)

Lemma asan_buffer_overflow_run (s : state) :
  let b := length (blocks s) in
  asan_buffer_overflow s =
    (Fault (OutOfBounds 15 10),
     log (EWrite TInt (Ptr b 60)) (log (EDecl b 40)
       (set_blocks (blocks s ++ [mkBlock Stack true (uninit 40)]) s))).
Proof. reflexivity. Qed.

(** C3: the overflow routine declares a stack array of 10 [int] (a fresh
    stack block of 40 uninitialised bytes), and its first access is a write
    of an [int] at index 15, byte offset 60: five elements beyond the end of
    the array.  The guarded indexing takes its out-of-bounds branch; nothing
    is stored and nothing is printed. *)
Theorem asan_buffer_overflow_writes_5_past (s : state) :
  let b := length (blocks s) in
  let arr := mkArray b TInt 10 in
  let s' := snd (asan_buffer_overflow s) in
  fst (asan_buffer_overflow s) = Fault (OutOfBounds 15 10) /\
  events_of asan_buffer_overflow s = [EDecl b 40; EWrite TInt (elem_ptr arr 15)] /\
  blocks s' = blocks s ++ [mkBlock Stack true (uninit (a_len arr * sizeof TInt))] /\
  a_len arr = 10 /\
  in_bounds arr 15 = false /\
  15 - a_len arr = 5 /\
  elem_ptr arr 15 = ptr_add TInt (elem_ptr arr (a_len arr)) 5 /\
  out s' = out s.
Proof.
  intros b arr s'. subst s'. rewrite asan_buffer_overflow_run.
  repeat split; try reflexivity.
  apply events_of_history. rewrite asan_buffer_overflow_run. solve_history.
Qed.

Lemma asan_double_free_run (s : state) :
  let b := length (blocks s) in
  asan_double_free s =
    (Fault (DoubleFree b),
     log (EDelete (Ptr b 0)) (log (EDelete (Ptr b 0)) (log (ENew b 4)
       (set_blocks (blocks s ++ [mkBlock Heap false (encode TInt 42)]) s)))).
Proof.
  intros b. unfold asan_double_free. unfold_ops.
  step. step. step. reflexivity.
Qed.

(** C5: the double-release routine performs three memory operations: one
    allocation, returning a handle [p], then two releases, both of [p], with
    no operation between them.  The second release is reported as a double
    free of the block of [p]. *)
Theorem asan_double_free_same_handle (s : state) :
  let p := Ptr (length (blocks s)) 0 in
  fst (new_int 42 s) = Ok p /\
  events_of asan_double_free s =
    [ENew (length (blocks s)) 4; EDelete p; EDelete p] /\
  releases (events_of asan_double_free s) = [p; p] /\
  fst (asan_double_free s) = Fault (DoubleFree (length (blocks s))) /\
  blocks (snd (asan_double_free s)) =
    blocks s ++ [mkBlock Heap false (encode TInt 42)].
Proof.
  intros p.
  assert (E : events_of asan_double_free s =
              [ENew (length (blocks s)) 4; EDelete p; EDelete p]).
  { apply events_of_history. rewrite asan_double_free_run. solve_history. }
  rewrite E, asan_double_free_run. by repeat split.
Qed.

(** ** The uninitialised-memory routines *)

Lemma msan_uninitialized_read_run (s : state) :
  let b := length (blocks s) in
  msan_uninitialized_read s =
    (Fault (UninitRead (Ptr b 0)),
     log (ERead TInt (Ptr b 0)) (log (EDecl b 4)
       (set_blocks (blocks s ++ [mkBlock Stack true (uninit 4)]) s))).
Proof.
  intros b. unfold msan_uninitialized_read. unfold_ops.
  step. reflexivity.
Qed.

Lemma msan_uninitialized_array_run (s : state) :
  let b := length (blocks s) in
  msan_uninitialized_array s =
    (Fault (UninitRead (Ptr b 0)),
     log (ERead TInt (Ptr b 0))
       (set_out (out s +:+ "Uninitialized array: ") (log (EDecl b 40)
         (set_blocks (blocks s ++ [mkBlock Stack true (uninit 40)]) s)))).
Proof.
  intros b. unfold msan_uninitialized_array. unfold_ops.
  step. reflexivity.
Qed.

Lemma msan_uninitialized_struct_run (s : state) :
  let b := length (blocks s) in
  msan_uninitialized_struct s =
    (Fault (UninitRead (Ptr b 0)),
     log (ERead TInt (Ptr b 0))
       (set_out (out s +:+ "Uninitialized struct: ") (log (EDecl b 16)
         (set_blocks (blocks s ++ [mkBlock Stack true (uninit 16)]) s)))).
Proof.
  intros b. unfold msan_uninitialized_struct. unfold_ops.
  step. reflexivity.
Qed.

(** C6: each uninitialised-memory routine performs two memory operations:
    the declaration of the object (a fresh block whose bytes are all
    uninitialised) and the read of the flagged location ([x], [arr[0]],
    [s.value]: offset 0 of the block).  No operation before the read writes
    into the block, and the guarded read finds the bytes uninitialised. *)
Theorem msan_no_write_before_read (s : state) :
  let b := length (blocks s) in
  let x := Ptr b 0 in
  let arr := mkArray b TInt 10 in
  (events_of msan_uninitialized_read s = [EDecl b 4; ERead TInt x] /\
   events_of msan_uninitialized_array s = [EDecl b 40; ERead TInt (elem_ptr arr 0)] /\
   events_of msan_uninitialized_struct s = [EDecl b 16; ERead TInt (MyStruct.value b)]) /\
  (existsb (reads_ptr x) (events_of msan_uninitialized_read s) = true /\
   existsb (reads_ptr (elem_ptr arr 0)) (events_of msan_uninitialized_array s) = true /\
   existsb (reads_ptr (MyStruct.value b)) (events_of msan_uninitialized_struct s) = true) /\
  (existsb (writes_block b)
     (before_read x (events_of msan_uninitialized_read s)) = false /\
   existsb (writes_block b)
     (before_read (elem_ptr arr 0) (events_of msan_uninitialized_array s)) = false /\
   existsb (writes_block b)
     (before_read (MyStruct.value b) (events_of msan_uninitialized_struct s)) = false) /\
  (fst (msan_uninitialized_read s) = Fault (UninitRead x) /\
   fst (msan_uninitialized_array s) = Fault (UninitRead (elem_ptr arr 0)) /\
   fst (msan_uninitialized_struct s) = Fault (UninitRead (MyStruct.value b))) /\
  (blocks (snd (msan_uninitialized_read s)) !! b =
     Some (mkBlock Stack true (uninit (sizeof TInt))) /\
   blocks (snd (msan_uninitialized_array s)) !! b =
     Some (mkBlock Stack true (uninit (10 * sizeof TInt))) /\
   blocks (snd (msan_uninitialized_struct s)) !! b =
     Some (mkBlock Stack true (uninit MyStruct.size))).
Proof.
  intros b x arr.
  assert (E1 : events_of msan_uninitialized_read s = [EDecl b 4; ERead TInt x]).
  { apply events_of_history. rewrite msan_uninitialized_read_run. solve_history. }
  assert (E2 : events_of msan_uninitialized_array s =
               [EDecl b 40; ERead TInt (elem_ptr arr 0)]).
  { apply events_of_history. rewrite msan_uninitialized_array_run. solve_history. }
  assert (E3 : events_of msan_uninitialized_struct s =
               [EDecl b 16; ERead TInt (MyStruct.value b)]).
  { apply events_of_history. rewrite msan_uninitialized_struct_run. solve_history. }
  rewrite E1, E2, E3.
  rewrite msan_uninitialized_read_run, msan_uninitialized_array_run,
    msan_uninitialized_struct_run.
  assert (R : forall p : ptr, bool_decide (p = p) = true)
    by (intros p; by apply bool_decide_eq_true).
  repeat split; cbn [existsb before_read reads_ptr writes_block orb];
    rewrite ?R; try reflexivity; cbn [snd]; apply lookup_fresh.
Qed.

(** ** The undefined-behaviour routines *)

Lemma ubsan_division_by_zero_run (s : state) :
  ubsan_division_by_zero s = (Fault (DivByZero 10), s).
Proof. reflexivity. Qed.

(** C4: the division routine divides the [int] 10 by the [int] 0 with the
    integer division, whose guard takes the division-by-zero branch for
    every dividend; on a non-zero divisor the same operation yields the
    quotient truncated towards zero, an integer. *)
Theorem ubsan_division_by_zero_is_integer_division (s : state) :
  ubsan_division_by_zero s = (Fault (DivByZero 10), s) /\
  (forall x : Z, int_div x 0 s = (Fault (DivByZero x), s)) /\
  int_div 10 0 s = (Fault (DivByZero 10), s) /\
  int_div 10 3 s = (Ok 3, s) /\
  int_div 10 4 s = (Ok 2, s) /\
  int_div (-10) 4 s = (Ok (-2), s).
Proof. repeat split; reflexivity. Qed.

Lemma ubsan_signed_overflow_run (s : state) :
  ubsan_signed_overflow s =
    (Ok tt,
     set_out (out s +:+ "Signed overflow: " +:+ string_of_Z Int.INT_MIN +:+ nl)
       (add_report (SignedOverflow Int.INT_MAX) s)).
Proof.
  unfold ubsan_signed_overflow. unfold_ops.
  change (incr_int Int.INT_MAX) with (Int.INT_MIN, true).
  unfold report_overflow, set_out, add_report. cbn -[String.append].
  by rewrite !append_assoc.
Qed.

(** C9: the signed-overflow routine increments [INT_MAX] once.  The sum
    [INT_MAX + 1] is outside the range of [int]; reduced modulo [2^32] into
    the signed range it is [INT_MIN], [-2147483648].  The overflow is
    reported and the routine prints that value. *)
Theorem ubsan_signed_overflow_wraps (s : state) :
  Int.INT_MAX = 2 ^ 31 - 1 /\
  Int.in_range Int.INT_MAX = true /\
  Int.in_range (Int.INT_MAX + 1) = false /\
  incr_int Int.INT_MAX = (Int.INT_MIN, true) /\
  Int.wrap (Int.INT_MAX + 1) = Int.INT_MIN /\
  Int.INT_MIN = -2147483648 /\
  (Int.INT_MAX + 1) mod 2 ^ 32 = Int.INT_MIN mod 2 ^ 32 /\
  fst (ubsan_signed_overflow s) = Ok tt /\
  out (snd (ubsan_signed_overflow s)) =
    out s +:+ "Signed overflow: " +:+ "-2147483648" +:+ nl /\
  reports (snd (ubsan_signed_overflow s)) =
    reports s ++ [SignedOverflow Int.INT_MAX].
Proof.
  rewrite ubsan_signed_overflow_run. repeat split; reflexivity.
Qed.

(** ** The globals are touched by the threading routines only *)

Section Frame.

Context {A B : Type}.

Lemma ps_ret (a : A) : ignores_shared (ret a).
Proof. by intros s c v. Qed.

Lemma ps_fault (e : violation) : ignores_shared (@fault A e).
Proof. by intros s c v. Qed.

Lemma ps_gets (f : state -> A) :
  (forall s c v, f (with_shared c v s) = f s) -> ignores_shared (gets f).
Proof. intros H s c v. unfold gets. by rewrite H. Qed.

Lemma ps_modify (f : state -> state) :
  (forall s c v, f (with_shared c v s) = with_shared c v (f s)) ->
  ignores_shared (modify f).
Proof. intros H s c v. unfold modify. by rewrite H. Qed.

Lemma ps_bind (m : M A) (k : A -> M B) :
  ignores_shared m -> (forall a, ignores_shared (k a)) ->
  ignores_shared (bind m k).
Proof.
  intros Hm Hk s c v. unfold bind. rewrite Hm.
  destruct (m s) as [[a|e] s1]; cbn [fst snd].
  - apply Hk.
  - reflexivity.
Qed.


End Frame.

Lemma ps_alloc_at (base : Z) (r : region) (bytes : list mbyte) :
  ignores_shared (alloc_at base r bytes).
Proof. by intros s c v. Qed.

Lemma ps_alloc (r : region) (bytes : list mbyte) :
  ignores_shared (alloc r bytes).
Proof. apply ps_alloc_at. Qed.

Lemma ps_report_overflow (x : Z) (ov : bool) (s : state) (c : Z) (v : list Z) :
  report_overflow x ov (with_shared c v s) =
  with_shared c v (report_overflow x ov s).
Proof. by destruct ov. Qed.

Ltac frame :=
  repeat match goal with
    | |- ignores_shared (bind _ _) => apply ps_bind; [| intros ?]
    | |- ignores_shared (ret _) => apply ps_ret
    | |- ignores_shared (fault _) => apply ps_fault
    | |- ignores_shared (gets _) => apply ps_gets; intros ? ? ?; reflexivity
    | |- ignores_shared (alloc_at _ _ _) => apply ps_alloc_at
    | |- ignores_shared (alloc _ _) => apply ps_alloc
    | |- ignores_shared (modify (report_overflow _ _)) =>
        apply ps_modify; intros ? ? ?; apply ps_report_overflow
    | |- ignores_shared (modify _) =>
        apply ps_modify; intros ? ? ?; reflexivity
    | |- ignores_shared (match ?x with _ => _ end) => destruct x
    | |- ignores_shared _ => assumption
    | H : forall _ _, ignores_shared (decl_at _ _)
      |- ignores_shared (decl_at _ _) => apply H
    end.

Create HintDb frame.

Lemma ps_print (t : string) : ignores_shared (print t).
Proof. unfold print. frame. Qed.

Lemma ps_print_int (n : Z) : ignores_shared (print_int n).
Proof. apply ps_print. Qed.

Lemma ps_endl : ignores_shared endl.
Proof. apply ps_print. Qed.

Lemma ps_decl_at (base : Z) (bytes : list mbyte) :
  ignores_shared (decl_at base bytes).
Proof. unfold decl_at. frame. Qed.

Lemma ps_decl (bytes : list mbyte) : ignores_shared (decl bytes).
Proof. apply ps_decl_at. Qed.

Lemma ps_base_of (t : ctype) : ignores_shared (base_of t).
Proof. unfold base_of. frame. Qed.

Lemma ps_decl_var (t : ctype) : ignores_shared (decl_var t).
Proof.
  unfold decl_var. pose proof (ps_base_of t). pose proof ps_decl_at. frame.
Qed.

Lemma ps_decl_var_init (t : ctype) (v : Z) : ignores_shared (decl_var_init t v).
Proof.
  unfold decl_var_init. pose proof (ps_base_of t). pose proof ps_decl_at. frame.
Qed.

Lemma ps_decl_array (t : ctype) (len : Z) : ignores_shared (decl_array t len).
Proof.
  unfold decl_array. pose proof (ps_base_of t). pose proof ps_decl_at. frame.
Qed.

Lemma ps_decl_array_init (t : ctype) (vs : list Z) :
  ignores_shared (decl_array_init t vs).
Proof.
  unfold decl_array_init. pose proof (ps_base_of t). pose proof ps_decl_at.
  frame.
Qed.

Lemma ps_new_int (v : Z) : ignores_shared (new_int v).
Proof. unfold new_int. frame. Qed.

Lemma ps_new_array (t : ctype) (n : Z) : ignores_shared (new_array t n).
Proof. unfold new_array. frame. Qed.

Lemma ps_delete (p : ptr) : ignores_shared (delete p).
Proof. unfold delete. frame. Qed.

Lemma ps_check_access (t : ctype) (p : ptr) : ignores_shared (check_access t p).
Proof. unfold check_access. frame. Qed.

Lemma ps_load_checked (t : ctype) (p : ptr) : ignores_shared (load_checked t p).
Proof. unfold load_checked. pose proof (ps_check_access t p). frame. Qed.

Lemma ps_store_checked (t : ctype) (p : ptr) (v : Z) :
  ignores_shared (store_checked t p v).
Proof. unfold store_checked. pose proof (ps_check_access t p). frame. Qed.

Lemma ps_load (t : ctype) (p : ptr) : ignores_shared (load t p).
Proof. unfold load. pose proof (ps_load_checked t p). frame. Qed.

Lemma ps_store (t : ctype) (p : ptr) (v : Z) : ignores_shared (store t p v).
Proof. unfold store. pose proof (ps_store_checked t p v). frame. Qed.

Lemma ps_array_get (a : array) (i : Z) : ignores_shared (array_get a i).
Proof.
  unfold array_get. pose proof (ps_load_checked (a_elt a) (elem_ptr a i)). frame.
Qed.

Lemma ps_array_set (a : array) (i v : Z) : ignores_shared (array_set a i v).
Proof.
  unfold array_set. pose proof (ps_store_checked (a_elt a) (elem_ptr a i) v). frame.
Qed.

Lemma ps_int_incr (x : Z) : ignores_shared (int_incr x).
Proof. unfold int_incr. frame. Qed.

Lemma ps_int_div (x y : Z) : ignores_shared (int_div x y).
Proof. unfold int_div. frame. Qed.

Lemma ps_int_shl (x n : Z) : ignores_shared (int_shl x n).
Proof. unfold int_shl. frame. Qed.

#[local] Hint Resolve ps_print ps_print_int ps_endl ps_decl ps_decl_var
  ps_decl_var_init ps_decl_array ps_decl_array_init ps_new_int ps_new_array
  ps_delete ps_load ps_store ps_array_get ps_array_set ps_int_incr ps_int_div
  ps_int_shl : frame.






(** ** Thread bodies *)

Lemma wrap_in_range (z : Z) : Int.in_range z = true -> Int.wrap z = z.
Proof.
  unfold Int.in_range, Int.wrap, Int.modulus, Int.width, Int.INT_MIN, Int.INT_MAX.
  intros H. apply andb_true_iff in H as [H1 H2].
  apply Z.leb_le in H1, H2.
  rewrite Z.mod_small; lia.
Qed.

Lemma incr_int_wrap (x : Z) : fst (incr_int x) = Int.wrap (x + 1).
Proof.
  unfold incr_int. destruct (Int.in_range (x + 1)) eqn:E; cbn [fst].
  - symmetry. by apply wrap_in_range.
  - reflexivity.
Qed.

Lemma wrap_succ (z : Z) : Int.wrap (Int.wrap z + 1) = Int.wrap (z + 1).
Proof.
  unfold Int.wrap.
  replace ((z - Int.INT_MIN) mod Int.modulus + Int.INT_MIN + 1 - Int.INT_MIN)
    with ((z - Int.INT_MIN) mod Int.modulus + 1) by lia.
  replace (z + 1 - Int.INT_MIN) with ((z - Int.INT_MIN) + 1) by lia.
  f_equal. rewrite Zplus_mod_idemp_l. reflexivity.
Qed.

Lemma exec_history (t : tid) (op : memop) (s : state) :
  history (snd (exec t op s)) = history s ++ [EShared t op].
Proof.
  destruct op; cbn; try reflexivity.
  destruct (incr_int old) as [r [|]]; reflexivity.
Qed.

Lemma exec_out (t : tid) (op : memop) (s : state) :
  out (snd (exec t op s)) = out s.
Proof.
  destruct op; cbn; try reflexivity.
  destruct (incr_int old) as [r [|]]; reflexivity.
Qed.

Lemma shape_for_loop (body : Z -> thr -> thr) (lb : list opkind) :
  (forall i rest l, shape rest l -> shape (body i rest) (lb ++ l)) ->
  forall (n : nat) (i : Z) (rest : thr) (l : list opkind),
    shape rest l ->
    shape (for_loop n i body rest) (concat (replicate n lb) ++ l).
Proof.
  intros Hb n. induction n as [|n IH]; intros i rest l Hr; cbn.
  - exact Hr.
  - rewrite <- app_assoc. apply Hb. by apply IH.
Qed.

Lemma shape_incr_shared_counter (rest : thr) (l : list opkind) :
  shape rest l -> shape (incr_shared_counter rest) ([KLoad; KStore] ++ l).
Proof.
  intros H. unfold incr_shared_counter.
  apply (shape_act LoadCounter). intros v.
  apply (shape_act (IncrStore v)). intros _. exact H.
Qed.

Lemma shape_tsan_data_race_increment :
  shape tsan_data_race_increment (increments 100000).
Proof.
  unfold tsan_data_race_increment, for_range, increments.
  rewrite <- (app_nil_r (concat _)).
  apply (shape_for_loop (fun _ rest => incr_shared_counter rest)).
  - intros _ rest l. apply shape_incr_shared_counter.
  - constructor.
Qed.

Lemma shape_tsan_vector_race : shape tsan_vector_race (appends 1000).
Proof.
  unfold tsan_vector_race, for_range, appends.
  change (1000 - 0) with 1000. set (n := Z.to_nat 1000).
  replace (replicate n KPush) with (concat (replicate n [KPush]) ++ []).
  - apply (shape_for_loop (fun i rest => Act (PushBack i) (fun _ => rest))).
    + intros i rest l H. apply (shape_act (PushBack i)). intros _. exact H.
    + constructor.
  - rewrite app_nil_r. clear. induction n as [|n IH]; cbn; [done | by rewrite IH].
Qed.

(** A thread that runs alone makes the steps of its body, in order. *)
Lemma run_thr_spec (t : tid) (b : thr) (l : list opkind) :
  shape b l ->
  forall s : state, exists ops : list memop,
    history (run_thr t b s) = history s ++ map (EShared t) ops /\
    map kind_of ops = l /\
    out (run_thr t b s) = out s.
Proof.
  induction 1 as [|op k l Hk IH]; intros s.
  - exists []. cbn. by rewrite app_nil_r.
  - cbn [run_thr]. destruct (exec t op s) as [v s1] eqn:E.
    destruct (IH v s1) as (ops & H1 & H2 & H3).
    exists (op :: ops). 
    pose proof (exec_history t op s) as Hh. pose proof (exec_out t op s) as Ho.
    rewrite E in Hh, Ho. cbn [snd] in Hh, Ho.
    rewrite H1, Hh, H3, Ho, <- app_assoc. cbn. by rewrite H2.
Qed.

Lemma run_steps_spec (t : tid) (n : nat) :
  forall (b : thr) (l : list opkind) (s : state),
    shape b l ->
    exists (ops : list memop) (l' : list opkind),
      history (snd (run_steps n t b s)) = history s ++ map (EShared t) ops /\
      l = map kind_of ops ++ l' /\
      shape (fst (run_steps n t b s)) l' /\
      out (snd (run_steps n t b s)) = out s.
Proof.
  induction n as [|n IH]; intros b l s Hb.
  - exists [], l. destruct b; cbn; by rewrite app_nil_r.
  - destruct Hb as [|op k l Hk].
    + exists [], []. cbn. rewrite app_nil_r. repeat split. constructor.
    + cbn [run_steps]. destruct (exec t op s) as [v s1] eqn:E.
      destruct (IH (k v) l s1 (Hk v)) as (ops & l' & H1 & H2 & H3 & H4).
      exists (op :: ops), l'.
      pose proof (exec_history t op s) as Hh. pose proof (exec_out t op s) as Ho.
      rewrite E in Hh, Ho. cbn [snd] in Hh, Ho.
      rewrite H1, Hh, H4, Ho, <- app_assoc. cbn. by rewrite H2.
Qed.

Lemma iter_wrap_succ (n : nat) (c : Z) :
  Nat.iter (S n) (fun c => Int.wrap (c + 1)) c = Int.wrap (c + Z.of_nat (S n)).
Proof.
  induction n as [|n IH].
  - cbn [Nat.iter]. f_equal.
  - change (Nat.iter (S (S n)) (fun c => Int.wrap (c + 1)) c)
      with (Int.wrap (Nat.iter (S n) (fun c => Int.wrap (c + 1)) c + 1)).
    rewrite IH, wrap_succ. f_equal. lia.
Qed.

(** The loop of [tsan_data_race_increment] run by one thread alone. *)
Lemma run_thr_increment_loop (t : tid) (n : nat) :
  forall (i : Z) (rest : thr) (s : state),
    exists s1 : state,
      run_thr t (for_loop n i (fun _ r => incr_shared_counter r) rest) s =
        run_thr t rest s1 /\
      shared_counter s1 =
        Nat.iter n (fun c => Int.wrap (c + 1)) (shared_counter s) /\
      shared_vec s1 = shared_vec s /\
      blocks s1 = blocks s.
Proof.
  induction n as [|n IH]; intros i rest s.
  - exists s. by cbn.
  - cbn [for_loop]. unfold incr_shared_counter. cbn [run_thr].
    cbn [exec].
    destruct (incr_int (shared_counter (log (EShared t LoadCounter) s)))
      as [r ov] eqn:E.
    match goal with
    | |- context [run_thr t (for_loop n (i + 1) _ rest) ?s0] =>
        destruct (IH (i + 1) rest s0) as (s1 & H1 & H2 & H3 & H4)
    end.
    exists s1. split; [exact H1 |].
    pose proof (incr_int_wrap (shared_counter s)) as Hw.
    cbn [log shared_counter] in E. rewrite E in Hw. cbn [fst] in Hw.
    rewrite H2, H3, H4. repeat split.
    + rewrite Nat.iter_succ_r. f_equal. by destruct ov.
    + by destruct ov.
    + by destruct ov.
Qed.

(** The loop of [tsan_vector_race] run by one thread alone. *)
Lemma run_thr_append_loop (t : tid) (n : nat) :
  forall (i : Z) (rest : thr) (s : state),
    exists s1 : state,
      run_thr t (for_loop n i (fun i r => Act (PushBack i) (fun _ => r)) rest) s =
        run_thr t rest s1 /\
      shared_vec s1 = shared_vec s ++ seqZ i (Z.of_nat n) /\
      shared_counter s1 = shared_counter s /\
      blocks s1 = blocks s.
Proof.
  induction n as [|n IH]; intros i rest s.
  - exists s. cbn. by rewrite app_nil_r.
  - cbn [for_loop run_thr exec].
    match goal with
    | |- context [run_thr t (for_loop n (i + 1) _ rest) ?s0] =>
        destruct (IH (i + 1) rest s0) as (s1 & H1 & H2 & H3 & H4)
    end.
    exists s1. split; [exact H1 |].
    rewrite H2, H3, H4. cbn. repeat split.
    rewrite <- app_assoc. f_equal.
    rewrite (seqZ_cons i) by lia. cbn. f_equal. f_equal; lia.
Qed.

Lemma count_increments (n : nat) :
  count_kind KLoad (concat (replicate n [KLoad; KStore])) = Z.of_nat n /\
  count_kind KStore (concat (replicate n [KLoad; KStore])) = Z.of_nat n /\
  count_kind KPush (concat (replicate n [KLoad; KStore])) = 0.
Proof.
  unfold count_kind. induction n as [|n (IH1 & IH2 & IH3)]; [done |].
  cbn [replicate concat app]. rewrite !filter_cons.
  repeat case_decide; try discriminate; try contradiction.
  cbn [length]. lia.
Qed.

Lemma count_appends (n : nat) :
  count_kind KPush (replicate n KPush) = Z.of_nat n /\
  length (replicate n KPush) = n.
Proof.
  unfold count_kind. split; [| apply length_replicate].
  induction n as [|n IH]; [done |].
  cbn [replicate]. rewrite filter_cons. case_decide; [| contradiction].
  cbn [length]. lia.
Qed.

Lemma count_kind_increments (n : Z) :
  0 <= n ->
  count_kind KLoad (increments n) = n /\ count_kind KStore (increments n) = n.
Proof.
  intros H. unfold increments.
  destruct (count_increments (Z.to_nat n)) as (K1 & K2 & _).
  rewrite K1, K2, Z2Nat.id by exact H. by split.
Qed.

Lemma count_kind_appends (n : Z) :
  0 <= n ->
  count_kind KPush (appends n) = n /\ Z.of_nat (length (appends n)) = n.
Proof.
  intros H. unfold appends.
  destruct (count_appends (Z.to_nat n)) as (K1 & K2).
  rewrite K1, K2, Z2Nat.id by exact H. by split.
Qed.

(** C10: each thread body returns after a fixed number of steps, whatever
    the values it reads: [tsan_data_race_increment] after 100000 load/store
    pairs, [tsan_vector_race] after 1000 appends.  Run by a thread alone from
    any state, the first leaves [shared_counter] 100000 higher (modulo
    [2^32]) and the second appends 0, 1, ..., 999 to [shared_vec]; the trace
    grows by exactly the steps of the body. *)
Theorem thread_bodies_terminate (t : tid) (s : state) :
  (shape tsan_data_race_increment (increments 100000) /\
   count_kind KStore (increments 100000) = 100000 /\
   count_kind KLoad (increments 100000) = 100000 /\
   (exists ops : list memop,
      history (run_thr t tsan_data_race_increment s) =
        history s ++ map (EShared t) ops /\
      map kind_of ops = increments 100000) /\
   shared_counter (run_thr t tsan_data_race_increment s) =
     Int.wrap (shared_counter s + 100000) /\
   shared_vec (run_thr t tsan_data_race_increment s) = shared_vec s /\
   shared_counter (run_thr t tsan_data_race_increment initial_state) = 100000) /\
  (shape tsan_vector_race (appends 1000) /\
   count_kind KPush (appends 1000) = 1000 /\
   Z.of_nat (length (appends 1000)) = 1000 /\
   (exists ops : list memop,
      history (run_thr t tsan_vector_race s) =
        history s ++ map (EShared t) ops /\
      map kind_of ops = appends 1000) /\
   shared_vec (run_thr t tsan_vector_race s) = shared_vec s ++ seqZ 0 1000 /\
   Z.of_nat (length (shared_vec (run_thr t tsan_vector_race s))) =
     Z.of_nat (length (shared_vec s)) + 1000 /\
   shared_counter (run_thr t tsan_vector_race s) = shared_counter s).
Proof.
  assert (C : forall s0, shared_counter (run_thr t tsan_data_race_increment s0) =
                         Int.wrap (shared_counter s0 + 100000) /\
                         shared_vec (run_thr t tsan_data_race_increment s0) =
                         shared_vec s0).
  { intros s0. unfold tsan_data_race_increment, for_range.
    destruct (run_thr_increment_loop t (Z.to_nat (100000 - 0)) 0 Done s0)
      as (s1 & H1 & H2 & H3 & _).
    rewrite H1. cbn [run_thr]. rewrite H2, H3. split; [| reflexivity].
    replace (Z.to_nat (100000 - 0)) with (S (Z.to_nat 99999))
      by (rewrite <- Z2Nat.inj_succ by discriminate; reflexivity).
    rewrite iter_wrap_succ.
    rewrite Nat2Z.inj_succ, Z2Nat.id by discriminate.
    reflexivity. }
  assert (V : shared_vec (run_thr t tsan_vector_race s) =
                shared_vec s ++ seqZ 0 1000 /\
              shared_counter (run_thr t tsan_vector_race s) = shared_counter s).
  { unfold tsan_vector_race, for_range.
    destruct (run_thr_append_loop t (Z.to_nat (1000 - 0)) 0 Done s)
      as (s1 & H1 & H2 & H3 & _).
    rewrite H1. cbn [run_thr]. rewrite H2, H3. split; [| reflexivity].
    f_equal. }
  split.
  - split; [apply shape_tsan_data_race_increment |].
    destruct (count_kind_increments 100000) as (K1 & K2); [discriminate |].
    split; [exact K2 |]. split; [exact K1 |]. split.
    { destruct (run_thr_spec t _ _ shape_tsan_data_race_increment s)
        as (ops & H1 & H2 & _).
      exists ops. split; assumption. }
    split; [apply C |]. split; [apply C |].
    destruct (C initial_state) as [-> _]. reflexivity.
  - split; [apply shape_tsan_vector_race |].
    destruct (count_kind_appends 1000) as (K1 & K2); [discriminate |].
    split; [exact K1 |]. split; [exact K2 |]. split.
    { destruct (run_thr_spec t _ _ shape_tsan_vector_race s)
        as (ops & H1 & H2 & _).
      exists ops. split; assumption. }
    destruct V as [V1 V2]. rewrite V1, V2.
    split; [reflexivity |]. split; [| reflexivity].
    rewrite length_app, length_seqZ, Nat2Z.inj_add, Z2Nat.id by discriminate.
    reflexivity.
Qed.

(** ** Two threads *)

Lemma shared_events_thread (t : tid) (ops : list memop) :
  shared_events (map (pair t) ops) = map (EShared t) ops.
Proof. unfold shared_events. rewrite map_map. reflexivity. Qed.

Lemma kinds_by_same (t : tid) (ops : list memop) :
  kinds_by t (map (pair t) ops) = map kind_of ops.
Proof.
  unfold kinds_by. induction ops as [|op ops IH]; [done |].
  cbn [map]. rewrite filter_cons. cbn [fst]. case_decide; [| contradiction].
  cbn [map snd]. by rewrite IH.
Qed.

Lemma kinds_by_other (t t' : tid) (ops : list memop) :
  t <> t' -> kinds_by t' (map (pair t) ops) = [].
Proof.
  intros Hne. unfold kinds_by. induction ops as [|op ops IH]; [done |].
  cbn [map]. rewrite filter_cons. cbn [fst]. case_decide; [contradiction |].
  exact IH.
Qed.

Lemma kinds_by_cons_same (t : tid) (op : memop) (acts : list (tid * memop)) :
  kinds_by t ((t, op) :: acts) = kind_of op :: kinds_by t acts.
Proof.
  unfold kinds_by. rewrite filter_cons. cbn [fst].
  case_decide; [done | contradiction].
Qed.

Lemma kinds_by_cons_other (t t' : tid) (op : memop) (acts : list (tid * memop)) :
  t <> t' -> kinds_by t' ((t, op) :: acts) = kinds_by t' acts.
Proof.
  intros Hne. unfold kinds_by. rewrite filter_cons. cbn [fst].
  case_decide; [contradiction | done].
Qed.

(** While the first thread is joined, the two threads make steps of their
    bodies only: the first all of its steps, the second a prefix of its
    own. *)
Lemma interleave_spec (ps : list bool) :
  forall (b1 b2 : thr) (l1 l2 : list opkind) (s : state),
    shape b1 l1 -> shape b2 l2 ->
    exists (acts : list (tid * memop)) (l2' : list opkind),
      history (snd (interleave ps b1 b2 s)) = history s ++ shared_events acts /\
      kinds_by T1 acts = l1 /\
      l2 = kinds_by T2 acts ++ l2' /\
      shape (fst (interleave ps b1 b2 s)) l2' /\
      Forall (fun a => fst a = T1 \/ fst a = T2) acts /\
      out (snd (interleave ps b1 b2 s)) = out s.
Proof.
  induction ps as [|[|] ps IH]; intros b1 b2 l1 l2 s H1 H2.
  - cbn [interleave fst snd].
    destruct (run_thr_spec T1 b1 l1 H1 s) as (ops & Hh & Hk & Ho).
    exists (map (pair T1) ops), l2.
    rewrite shared_events_thread, kinds_by_same, (kinds_by_other T1 T2)
      by discriminate.
    repeat split; try assumption.
    apply Forall_forall. intros a Ha.
    apply list_elem_of_fmap in Ha as (op & -> & _). by left.
  - destruct H1 as [|op k l Hk].
    + exists [], l2. cbn. rewrite app_nil_r. by repeat split.
    + cbn [interleave]. destruct (exec T1 op s) as [v s1] eqn:E.
      destruct (IH (k v) b2 l l2 s1 (Hk v) H2)
        as (acts & l2' & Hh & Hk1 & Hk2 & Hs & Hf & Ho).
      exists ((T1, op) :: acts), l2'.
      pose proof (exec_history T1 op s) as Eh.
      pose proof (exec_out T1 op s) as Eo.
      rewrite E in Eh, Eo. cbn [snd] in Eh, Eo.
      rewrite Hh, Eh, Ho, Eo, <- app_assoc, kinds_by_cons_same,
        (kinds_by_cons_other T1 T2), Hk1 by discriminate.
      repeat split; try assumption.
      constructor; [by left | assumption].
  - destruct H2 as [|op k l Hk].
    + cbn [interleave]. apply IH; [assumption | constructor].
    + cbn [interleave]. destruct (exec T2 op s) as [v s1] eqn:E.
      destruct (IH b1 (k v) l1 l s1 H1 (Hk v))
        as (acts & l2' & Hh & Hk1 & Hk2 & Hs & Hf & Ho).
      exists ((T2, op) :: acts), l2'.
      pose proof (exec_history T2 op s) as Eh.
      pose proof (exec_out T2 op s) as Eo.
      rewrite E in Eh, Eo. cbn [snd] in Eh, Eo.
      rewrite Hh, Eh, Ho, Eo, <- app_assoc, kinds_by_cons_same,
        (kinds_by_cons_other T2 T1), Hk1, Hk2 by discriminate.
      repeat split; try assumption.
      constructor; [by right | assumption].
Qed.

(** The two examples run their continuation in [after_threads]. *)
Lemma two_threads_run {A} (f : thr) (sch : schedule) (k : M A) (s : state) :
  (t1 <- spawn T1 f ;;
   t1 <- advance (head_start sch) T1 t1 ;;
   t2 <- spawn T2 f ;;
   t2 <- join_first (picks sch) t1 t2 ;;
   join_last t2 ;;
   k) s = k (after_threads f sch s).
Proof.
  unfold after_threads, spawn, advance, join_first, join_last, bind, modify, ret.
  destruct (run_steps (head_start sch) T1 f (log (ESpawn T1) s)) as [r1 s1].
  cbn [fst snd].
  destruct (interleave (picks sch) r1 f (log (ESpawn T2) s1)) as [r2 s2].
  reflexivity.
Qed.

(** What the trace holds when both threads have been joined. *)
Lemma after_threads_spec (f : thr) (l : list opkind) (sch : schedule) (s : state) :
  shape f l ->
  exists (a c : list memop) (b : list (tid * memop)),
    history (after_threads f sch s) =
      history s ++ [ESpawn T1] ++ map (EShared T1) a ++ [ESpawn T2] ++
      shared_events b ++ [EJoin T1] ++ map (EShared T2) c ++ [EJoin T2] /\
    map kind_of a ++ kinds_by T1 b = l /\
    kinds_by T2 b ++ map kind_of c = l /\
    Forall (fun x => fst x = T1 \/ fst x = T2) b /\
    out (after_threads f sch s) = out s.
Proof.
  intros Hf. unfold after_threads.
  destruct (run_steps_spec T1 (head_start sch) f l (log (ESpawn T1) s) Hf)
    as (a & l1 & Ha & Hl & Hs1 & Ho1).
  destruct (run_steps (head_start sch) T1 f (log (ESpawn T1) s)) as [r1 s1].
  cbn [fst snd] in *.
  destruct (interleave_spec (picks sch) r1 f l1 l (log (ESpawn T2) s1) Hs1 Hf)
    as (b & l2 & Hb & Hk1 & Hk2 & Hs2 & Hfa & Ho2).
  destruct (interleave (picks sch) r1 f (log (ESpawn T2) s1)) as [r2 s2].
  cbn [fst snd] in *.
  destruct (run_thr_spec T2 r2 l2 Hs2 (log (EJoin T1) s2)) as (c & Hc & Hkc & Ho3).
  exists a, c, b.
  rewrite history_log, Hc, history_log, Hb, history_log, Ha, history_log.
  rewrite Hk1, Hkc, <- Hk2, <- Hl.
  repeat split; try assumption.
  - rewrite <- !app_assoc. reflexivity.
  - change (out (run_thr T2 r2 (log (EJoin T1) s2)) = out s).
    rewrite Ho3. change (out s2 = out s). rewrite Ho2.
    change (out s1 = out s). exact Ho1.
Qed.

Lemma spawns_app (l1 l2 : list event) : spawns (l1 ++ l2) = spawns l1 ++ spawns l2.
Proof. apply flat_map_app. Qed.

Lemma joins_app (l1 l2 : list event) : joins (l1 ++ l2) = joins l1 ++ joins l2.
Proof. apply flat_map_app. Qed.

Lemma spawns_shared (acts : list (tid * memop)) : spawns (shared_events acts) = [].
Proof. induction acts as [|a acts IH]; [done | exact IH]. Qed.

Lemma joins_shared (acts : list (tid * memop)) : joins (shared_events acts) = [].
Proof. induction acts as [|a acts IH]; [done | exact IH]. Qed.

Lemma spawns_thread (t : tid) (ops : list memop) : spawns (map (EShared t) ops) = [].
Proof. rewrite <- shared_events_thread. apply spawns_shared. Qed.

Lemma joins_thread (t : tid) (ops : list memop) : joins (map (EShared t) ops) = [].
Proof. rewrite <- shared_events_thread. apply joins_shared. Qed.

(** The report of [tsan_data_race_example], from the state after the joins. *)
Lemma report_counter_run (s : state) :
  (print "Counter value: " ;;
   c <- read_shared_counter ;;
   print_int c ;;
   endl) s =
  (Ok tt,
   set_out (out s +:+ "Counter value: " +:+ string_of_Z (shared_counter s) +:+ nl)
     (log (EShared MAIN LoadCounter) s)).
Proof.
  unfold read_shared_counter. unfold_ops. unfold set_out, log.
  cbn -[String.append string_of_Z]. by rewrite !append_assoc.
Qed.

Lemma tsan_data_race_example_run (sch : schedule) (s : state) :
  let s' := after_threads tsan_data_race_increment sch s in
  tsan_data_race_example sch s =
    (Ok tt,
     set_out (out s' +:+ "Counter value: " +:+ string_of_Z (shared_counter s') +:+ nl)
       (log (EShared MAIN LoadCounter) s')).
Proof.
  intros s'. unfold tsan_data_race_example.
  rewrite two_threads_run. apply report_counter_run.
Qed.

(** With the first thread run to its end before the second starts, every
    increment counts. *)
Lemma data_race_sequential :
  shared_counter (snd (tsan_data_race_example sequential_schedule initial_state))
    = 200000 /\
  out (snd (tsan_data_race_example sequential_schedule initial_state))
    = "Counter value: 200000" +:+ nl.
Proof. split; vm_compute; reflexivity. Qed.

(** With both threads loading 0 before either stores, increments are lost. *)
Lemma data_race_lost_update :
  shared_counter (snd (tsan_data_race_example racy_schedule initial_state))
    = 100000 /\
  out (snd (tsan_data_race_example racy_schedule initial_state))
    = "Counter value: 100000" +:+ nl.
Proof. split; vm_compute; reflexivity. Qed.

(** ** The vector under two threads *)

Lemma pushes_by_app (t : tid) (l1 l2 : list event) :
  pushes_by t (l1 ++ l2) = pushes_by t l1 ++ pushes_by t l2.
Proof. unfold pushes_by. by rewrite flat_map_app. Qed.

Lemma pushes_by_other (t t' : tid) (evs : list event) :
  t <> t' -> forallb (step_of t) evs = true -> pushes_by t' evs = [].
Proof.
  intros Hne. induction evs as [|e evs IH]; [reflexivity |].
  cbn [forallb]. intros [He Hevs]%andb_prop.
  change (e :: evs) with ([e] ++ evs).
  rewrite pushes_by_app, (IH Hevs), app_nil_r.
  destruct e as [| | | | | | |t0 op]; try reflexivity.
  cbn in He. apply Nat.eqb_eq in He as ->.
  destruct op; try reflexivity. cbn. by destruct (decide (t = t')).
Qed.

Lemma spawns_steps (t : tid) (evs : list event) :
  forallb (step_of t) evs = true -> spawns evs = [] /\ joins evs = [].
Proof.
  induction evs as [|e evs IH]; [done |].
  cbn [forallb]. intros [He Hevs]%andb_prop.
  destruct (IH Hevs) as [IH1 IH2].
  change (e :: evs) with ([e] ++ evs).
  rewrite spawns_app, joins_app, IH1, IH2. by destruct e.
Qed.

Lemma spawns_either (evs : list event) :
  forallb (fun e => step_of T1 e || step_of T2 e) evs = true ->
  spawns evs = [] /\ joins evs = [].
Proof.
  induction evs as [|e evs IH]; [done |].
  cbn [forallb]. intros [He Hevs]%andb_prop.
  destruct (IH Hevs) as [IH1 IH2].
  change (e :: evs) with ([e] ++ evs).
  rewrite spawns_app, joins_app, IH1, IH2. by destruct e.
Qed.

Lemma steps_either (t : tid) (evs : list event) :
  t = T1 \/ t = T2 -> forallb (step_of t) evs = true ->
  forallb (fun e => step_of T1 e || step_of T2 e) evs = true.
Proof.
  intros Ht H. apply forallb_forall. intros e He.
  rewrite forallb_forall in H. specialize (H e He).
  destruct Ht as [-> | ->]; rewrite H; [reflexivity | apply orb_true_r].
Qed.

(** The accesses to memory record one operation each, whether they succeed
    or not, and print nothing. *)
Lemma store_trace (t : ctype) (p : ptr) (v : Z) (s : state) :
  history (snd (store t p v s)) = history s ++ [EWrite t p] /\
  out (snd (store t p v s)) = out s.
Proof.
  unfold history, store, store_checked, check_access. unfold_ops.
  destruct p as [|b off]; cbn; [done |].
  repeat case_match; simplify_eq; cbn; done.
Qed.

Lemma load_trace (t : ctype) (p : ptr) (s : state) :
  history (snd (load t p s)) = history s ++ [ERead t p] /\
  out (snd (load t p s)) = out s.
Proof.
  unfold history, load, load_checked, check_access. unfold_ops.
  destruct p as [|b off]; cbn; [done |].
  repeat case_match; simplify_eq; cbn; done.
Qed.

Lemma delete_trace (p : ptr) (s : state) :
  history (snd (delete p s)) = history s ++ [EDelete p] /\
  out (snd (delete p s)) = out s.
Proof.
  unfold history, delete. unfold_ops.
  destruct p as [|b off]; cbn; [done |].
  repeat case_match; simplify_eq; cbn; done.
Qed.

Lemma new_array_trace (t : ctype) (n : Z) (s : state) :
  history (snd (new_array t n s)) =
    history s ++ [ENew (length (blocks s)) (n * sizeof t)] /\
  out (snd (new_array t n s)) = out s.
Proof.
  unfold history, new_array. unfold_ops. cbn -[Z.mul]. done.
Qed.

(** One step of a thread adds operations of that thread only, among them
    the calls of [push_back] that the step starts. *)
Lemma vexec_spec (t : tid) (o : vop) (s : state) :
  exists evs : list event,
    history (snd (vexec t o s)) = history s ++ evs /\
    forallb (step_of t) evs = true /\
    pushes_by t evs = op_calls o /\
    out (snd (vexec t o s)) = out s.
Proof.
  destruct o as [op|v|p i v|from to i|len|p|n|p n cap]; cbn [vexec op_calls].
  - exists [EShared t op].
    pose proof (exec_history t op s) as Hh. pose proof (exec_out t op s) as Ho.
    destruct (exec t op s) as [x s']. cbn [snd] in *.
    split_and!; [exact Hh | cbn; by rewrite Nat.eqb_refl | | exact Ho].
    destruct op; cbn; try reflexivity. by destruct (decide (t = t)).
  - exists [EShared t (PushBack v)]. unfold history. unfold_ops.
    cbn -[decide]. rewrite Nat.eqb_refl.
    split_and!; try reflexivity. by destruct (decide (t = t)).
  - exists [EWrite TInt (ptr_add TInt p i)].
    destruct (store_trace TInt (ptr_add TInt p i) v s) as [Hh Ho].
    unfold bind, ret.
    destruct (store TInt (ptr_add TInt p i) v s) as [[[]|e] s']; by cbn in *.
  - pose proof (load_trace TInt (ptr_add TInt from i) s) as [Hh Ho].
    unfold bind, ret.
    destruct (load TInt (ptr_add TInt from i) s) as [[x|e] s1]; cbn [snd] in *.
    + pose proof (store_trace TInt (ptr_add TInt to i) x s1) as [Hh' Ho'].
      exists [ERead TInt (ptr_add TInt from i); EWrite TInt (ptr_add TInt to i)].
      destruct (store TInt (ptr_add TInt to i) x s1) as [[[]|e] s2];
        cbn [snd] in *; rewrite Hh', Hh, Ho', Ho, <- app_assoc; done.
    + by exists [ERead TInt (ptr_add TInt from i)].
  - pose proof (new_array_trace TInt len s) as [Hh Ho].
    exists [ENew (length (blocks s)) (len * sizeof TInt)].
    unfold bind, ret.
    destruct (new_array TInt len s) as [[q|e] s']; by cbn [snd] in *.
  - pose proof (delete_trace p s) as [Hh Ho].
    exists [EDelete p]. unfold bind, ret.
    destruct (delete p s) as [[[]|e] s']; by cbn [snd] in *.
  - exists []. unfold history. unfold_ops. cbn. by rewrite app_nil_r.
  - exists []. unfold history. unfold_ops. cbn. by rewrite app_nil_r.
Qed.

Lemma vcalls_step (o : vop) (k : vresult -> vprog) (l : list Z) :
  (forall r : vresult, vcalls (k r) l) -> op_calls o = [] -> vcalls (VAct o k) l.
Proof.
  intros Hk Ho. pose proof (vcalls_act o k l Hk) as H. by rewrite Ho in H.
Qed.

Lemma vcalls_vcopy (n : nat) (from to : ptr) (rest : vprog) (l : list Z) :
  vcalls rest l -> forall i : Z, vcalls (vcopy n i from to rest) l.
Proof.
  intros Hrest. induction n as [|n IH]; intros i; cbn [vcopy]; [exact Hrest |].
  apply vcalls_step; [intros _; apply IH | reflexivity].
Qed.

(** A call of [push_back] is one call, on either path. *)
Lemma vcalls_push_back (v : Z) (rest : vprog) (l : list Z) :
  vcalls rest l -> vcalls (push_back_steps v rest) (v :: l).
Proof.
  intros Hrest. unfold push_back_steps.
  apply (vcalls_act (OBegin v) _ l). intros [[start size] cap].
  destruct (negb (size =? cap)).
  - apply vcalls_step; [intros _ | reflexivity].
    apply vcalls_step; [intros _; exact Hrest | reflexivity].
  - cbv zeta. apply vcalls_step; [intros [[new ?] ?] | reflexivity].
    apply vcalls_step; [intros _ | reflexivity].
    apply vcalls_vcopy.
    assert (Hp : vcalls (VAct (OPublish new (size + 1) (size + Z.max size 1))
                           (fun _ => rest)) l).
    { apply vcalls_step; [intros _; exact Hrest | reflexivity]. }
    destruct start; [exact Hp |].
    apply vcalls_step; [intros _; exact Hp | reflexivity].
Qed.

Lemma vcalls_append_loop (n : nat) (i : Z) :
  vcalls (expand (for_loop n i (fun i rest => Act (PushBack i) (fun _ => rest)) Done))
         (seqZ i (Z.of_nat n)).
Proof.
  revert i. induction n as [|n IH]; intros i.
  - cbn. constructor.
  - rewrite Nat2Z.inj_succ, seqZ_cons by lia.
    replace (Z.pred (Z.succ (Z.of_nat n))) with (Z.of_nat n) by lia.
    cbn [for_loop expand]. apply vcalls_push_back. apply IH.
Qed.

Lemma vcalls_tsan_vector_race : vcalls (expand tsan_vector_race) (seqZ 0 1000).
Proof. exact (vcalls_append_loop 1000 0). Qed.

(** A thread running alone: the calls it has made when it stops are the
    first of its calls, all of them if it returns. *)
Lemma vrun_spec (t : tid) (p : vprog) (l : list Z) :
  vcalls p l ->
  forall s : state,
    exists evs : list event,
      history (snd (vrun t p s)) = history s ++ evs /\
      forallb (step_of t) evs = true /\
      out (snd (vrun t p s)) = out s /\
      match fst (vrun t p s) with
      | Ok _ => pushes_by t evs = l
      | Fault _ => pushes_by t evs `prefix_of` l
      end.
Proof.
  induction 1 as [|o k l Hk IH]; intros s.
  - exists []. cbn. by rewrite app_nil_r.
  - cbn [vrun].
    destruct (vexec_spec t o s) as (e1 & Hh1 & Hf1 & Hp1 & Ho1).
    destruct (vexec t o s) as [[r|e] s1]; cbn [snd] in *.
    + destruct (IH r s1) as (e2 & Hh2 & Hf2 & Ho2 & Hr).
      exists (e1 ++ e2).
      rewrite Hh2, Hh1, Ho2, Ho1, forallb_app, Hf1, Hf2, pushes_by_app, Hp1,
        <- app_assoc.
      split_and!; try reflexivity.
      destruct (fst (vrun t (k r) s1)); [by rewrite Hr |].
      by apply prefix_app.
    + exists e1. cbn [fst]. rewrite Hp1.
      split_and!; try assumption. by apply prefix_app_r.
Qed.

Lemma vrun_steps_spec (n : nat) (t : tid) :
  forall (p : vprog) (l : list Z),
    vcalls p l ->
    forall s : state,
      exists evs : list event,
        history (snd (vrun_steps n t p s)) = history s ++ evs /\
        forallb (step_of t) evs = true /\
        out (snd (vrun_steps n t p s)) = out s /\
        match fst (vrun_steps n t p s) with
        | Ok p' => exists l', vcalls p' l' /\ l = pushes_by t evs ++ l'
        | Fault _ => pushes_by t evs `prefix_of` l
        end.
Proof.
  induction n as [|n IH]; intros p l Hp s.
  - exists []. destruct p; cbn; rewrite app_nil_r; split_and!; try reflexivity;
      by exists l.
  - destruct Hp as [|o k l Hk].
    + exists []. cbn. rewrite app_nil_r. split_and!; try reflexivity.
      exists []. split; [constructor | reflexivity].
    + cbn [vrun_steps].
      destruct (vexec_spec t o s) as (e1 & Hh1 & Hf1 & Hp1 & Ho1).
      destruct (vexec t o s) as [[r|e] s1]; cbn [snd] in *.
      * destruct (IH (k r) l (Hk r) s1) as (e2 & Hh2 & Hf2 & Ho2 & Hr).
        exists (e1 ++ e2).
        rewrite Hh2, Hh1, Ho2, Ho1, forallb_app, Hf1, Hf2, pushes_by_app, Hp1,
          <- app_assoc.
        split_and!; try reflexivity.
        destruct (fst (vrun_steps n t (k r) s1)) as [p'|e].
        -- destruct Hr as (l' & Hl' & ->). exists l'.
           split; [exact Hl' | by rewrite app_assoc].
        -- by apply prefix_app.
      * exists e1. cbn [fst]. rewrite Hp1.
        split_and!; try assumption. by apply prefix_app_r.
Qed.

(** Two threads, as the scheduler picks: when the first has returned it has
    made all of its calls, and the second those that what is left of it does
    not make; when a step fails each has made the first of its calls. *)
Lemma vinterleave_spec (ps : list bool) :
  forall (p1 p2 : vprog) (l1 l2 : list Z),
    vcalls p1 l1 -> vcalls p2 l2 ->
    forall s : state,
      exists evs : list event,
        history (snd (vinterleave ps p1 p2 s)) = history s ++ evs /\
        forallb (fun e => step_of T1 e || step_of T2 e) evs = true /\
        out (snd (vinterleave ps p1 p2 s)) = out s /\
        match fst (vinterleave ps p1 p2 s) with
        | Ok p2' =>
            pushes_by T1 evs = l1 /\
            exists l', vcalls p2' l' /\ l2 = pushes_by T2 evs ++ l'
        | Fault _ =>
            pushes_by T1 evs `prefix_of` l1 /\ pushes_by T2 evs `prefix_of` l2
        end.
Proof.
  induction ps as [|[|] ps IH]; intros p1 p2 l1 l2 H1 H2 s.
  - cbn [vinterleave].
    destruct (vrun_spec T1 p1 l1 H1 s) as (evs & Hh & Hf & Ho & Hr).
    pose proof (pushes_by_other T1 T2 evs ltac:(done) Hf) as Hn.
    exists evs.
    destruct (vrun T1 p1 s) as [[[]|e] s']; cbn [fst snd] in *;
      (split_and!; [exact Hh | by apply (steps_either T1); [left |] | exact Ho | ..]).
    + exact Hr.
    + exists l2. by rewrite Hn.
    + exact Hr.
    + rewrite Hn. apply prefix_nil.
  - cbn [vinterleave]. destruct H1 as [|o k l1 Hk].
    + exists []. cbn. rewrite app_nil_r. split_and!; try reflexivity. by exists l2.
    + destruct (vexec_spec T1 o s) as (e1 & Hh1 & Hf1 & Hp1 & Ho1).
      pose proof (pushes_by_other T1 T2 e1 ltac:(done) Hf1) as Hn.
      apply (steps_either T1) in Hf1; [| by left].
      destruct (vexec T1 o s) as [[r|e] s1]; cbn [snd] in *.
      * destruct (IH (k r) p2 l1 l2 (Hk r) H2 s1) as (e2 & Hh2 & Hf2 & Ho2 & Hr).
        exists (e1 ++ e2).
        rewrite Hh2, Hh1, Ho2, Ho1, forallb_app, Hf1, Hf2, !pushes_by_app, Hp1, Hn,
          <- app_assoc.
        split_and!; try reflexivity.
        destruct (fst (vinterleave ps (k r) p2 s1)) as [p2'|e].
        -- destruct Hr as [-> Hr]. by split.
        -- destruct Hr as [Hr1 Hr2]. split; [by apply prefix_app | exact Hr2].
      * exists e1. cbn [fst]. rewrite Hp1, Hn.
        split_and!; try assumption; [by apply prefix_app_r | apply prefix_nil].
  - cbn [vinterleave]. destruct H2 as [|o k l2 Hk].
    + apply IH; [exact H1 | constructor].
    + destruct (vexec_spec T2 o s) as (e1 & Hh1 & Hf1 & Hp1 & Ho1).
      pose proof (pushes_by_other T2 T1 e1 ltac:(done) Hf1) as Hn.
      apply (steps_either T2) in Hf1; [| by right].
      destruct (vexec T2 o s) as [[r|e] s1]; cbn [snd] in *.
      * destruct (IH p1 (k r) l1 l2 H1 (Hk r) s1) as (e2 & Hh2 & Hf2 & Ho2 & Hr).
        exists (e1 ++ e2).
        rewrite Hh2, Hh1, Ho2, Ho1, forallb_app, Hf1, Hf2, !pushes_by_app, Hp1, Hn,
          <- app_assoc.
        split_and!; try reflexivity.
        destruct (fst (vinterleave ps p1 (k r) s1)) as [p2'|e].
        -- destruct Hr as [Hr (l' & Hl' & ->)]. split; [exact Hr |].
           exists l'. split; [exact Hl' | by rewrite app_assoc].
        -- destruct Hr as [Hr1 Hr2]. split; [exact Hr1 | by apply prefix_app].
      * exists e1. cbn [fst]. rewrite Hp1, Hn.
        split_and!; try assumption; [apply prefix_nil | by apply prefix_app_r].
Qed.

(** The example, stage by stage. *)
Lemma tsan_vector_race_example_run (sch : schedule) (s : state) :
  tsan_vector_race_example sch s =
    match vrun_steps (head_start sch) T1 (expand tsan_vector_race)
            (log (ESpawn T1) s) with
    | (Fault e, s2) => (Fault e, s2)
    | (Ok p1, s2) =>
        match vinterleave (picks sch) p1 (expand tsan_vector_race)
                (log (ESpawn T2) s2) with
        | (Fault e, s3) => (Fault e, s3)
        | (Ok p2, s3) =>
            match vrun T2 p2 (log (EJoin T1) s3) with
            | (Fault e, s4) => (Fault e, s4)
            | (Ok _, s4) => sync_vec (log (EJoin T2) s4)
            end
        end
    end.
Proof.
  unfold tsan_vector_race_example, vspawn, vadvance, vjoin_first, vjoin_last,
    bind, ret, modify.
  cbv beta iota.
  destruct (vrun_steps _ _ _ _) as [[p1|e] s2]; [| reflexivity].
  destruct (vinterleave _ _ _ _) as [[p2|e] s3]; [| reflexivity].
  destruct (vrun _ _ _) as [[[]|e] s4]; [| reflexivity].
  by destruct (sync_vec _) as [[[]|e] s5].
Qed.

(** Under every schedule: when the example returns, both threads have been
    created and joined and each has made its thousand calls before it is
    joined; when a step fails, the operations stop there. *)
Lemma tsan_vector_race_example_spec (sch : schedule) (s : state) :
  out (snd (tsan_vector_race_example sch s)) = out s /\
  match fst (tsan_vector_race_example sch s) with
  | Ok _ =>
      exists a b c : list event,
        history (snd (tsan_vector_race_example sch s)) =
          history s ++
          [ESpawn T1] ++ a ++ [ESpawn T2] ++ b ++ [EJoin T1] ++ c ++ [EJoin T2] /\
        forallb (step_of T1) a = true /\
        forallb (fun e => step_of T1 e || step_of T2 e) b = true /\
        forallb (step_of T2) c = true /\
        pushes_by T1 (a ++ b) = seqZ 0 1000 /\
        pushes_by T2 (b ++ c) = seqZ 0 1000
  | Fault _ =>
      exists evs : list event,
        history (snd (tsan_vector_race_example sch s)) =
          history s ++ [ESpawn T1] ++ evs /\
        spawns evs `prefix_of` [T2] /\
        joins evs `prefix_of` [T1] /\
        pushes_by T1 evs `prefix_of` seqZ 0 1000 /\
        pushes_by T2 evs `prefix_of` seqZ 0 1000
  end.
Proof.
  rewrite tsan_vector_race_example_run.
  destruct (vrun_steps_spec (head_start sch) T1 _ _ vcalls_tsan_vector_race
              (log (ESpawn T1) s)) as (a & Ha & Fa & Oa & Ra).
  pose proof (pushes_by_other T1 T2 a ltac:(done) Fa) as Na.
  destruct (spawns_steps T1 a Fa) as [Sa Ja].
  rewrite history_log in Ha.
  destruct (vrun_steps _ _ _ _) as [[p1|e] s2]; cbn [fst snd out log] in *.
  2: { split; [exact Oa |]. exists a.
       rewrite Ha, Sa, Ja, Na, <- app_assoc.
       split_and!; [reflexivity | apply prefix_nil | apply prefix_nil | exact Ra
                   | apply prefix_nil]. }
  destruct Ra as (l1 & Hl1 & El1).
  destruct (vinterleave_spec (picks sch) p1 _ l1 _ Hl1 vcalls_tsan_vector_race
              (log (ESpawn T2) s2)) as (b & Hb & Fb & Ob & Rb).
  destruct (spawns_either b Fb) as [Sb Jb].
  rewrite history_log, Ha in Hb.
  destruct (vinterleave _ _ _ _) as [[p2|e] s3]; cbn [fst snd out log] in *.
  2: { split; [congruence |]. exists (a ++ [ESpawn T2] ++ b).
       destruct Rb as [Rb1 Rb2].
       rewrite Hb, !spawns_app, !joins_app, !pushes_by_app, Sa, Ja, Sb, Jb, Na,
         <- !app_assoc.
       split_and!; [reflexivity | done | apply prefix_nil | | exact Rb2].
       cbn [pushes_by flat_map app]. rewrite El1. by apply prefix_app. }
  destruct Rb as (Rb1 & l2 & Hl2 & El2).
  destruct (vrun_spec T2 p2 l2 Hl2 (log (EJoin T1) s3)) as (c & Hc & Fc & Oc & Rc).
  pose proof (pushes_by_other T2 T1 c ltac:(done) Fc) as Nc.
  destruct (spawns_steps T2 c Fc) as [Sc Jc].
  rewrite history_log, Hb in Hc.
  destruct (vrun _ _ _) as [[[]|e] s4]; cbn [fst snd out log] in *.
  - split; [unfold sync_vec, modify; cbn [snd out set_shared_vec log]; congruence |].
    exists a, b, c. unfold sync_vec, modify. cbn [fst snd].
    rewrite history_set_shared_vec, history_log, Hc, !pushes_by_app, Rb1, Rc,
      <- !app_assoc.
    split_and!; done.
  - split; [congruence |].
    exists (a ++ [ESpawn T2] ++ b ++ [EJoin T1] ++ c).
    rewrite Hc, !spawns_app, !joins_app, !pushes_by_app, Sa, Ja, Sb, Jb, Sc, Jc,
      Na, Nc, Rb1, <- !app_assoc.
    split_and!; [reflexivity | done | done | |].
    + cbn [pushes_by flat_map app]. rewrite app_nil_r, El1. done.
    + cbn [pushes_by flat_map app]. rewrite El2. by apply prefix_app.
Qed.

(** From the state at process start.  With the first thread run to its end
    before the second is created, the vector holds the elements of both
    threads, as it does when each call is one step; the buffer grew eleven
    times and the last one, with room for 2048 elements, is left. *)
Lemma vector_race_sequential :
  let r := tsan_vector_race_example sequential_schedule initial_state in
  fst r = Ok tt /\
  shared_vec (snd r) = seqZ 0 1000 ++ seqZ 0 1000 /\
  shared_vec (snd r) =
    shared_vec (run_thr T2 tsan_vector_race (run_thr T1 tsan_vector_race initial_state)) /\
  map b_bytes (live_heap (blocks (snd r))) =
    [map Some (concat (map (encode_bytes 4) (seqZ 0 1000 ++ seqZ 0 1000)))
       ++ uninit (48 * 4)] /\
  length (blocks (snd r)) = 12%nat.
Proof. vm_compute. split_and!; reflexivity. Qed.

(** With both threads inside their first call at once, the second installs
    its own buffer over the one the first has filled: the example returns
    and the vector holds a thousand elements, not two thousand. *)
Lemma vector_race_lost_elements :
  let r := tsan_vector_race_example racy_schedule initial_state in
  fst r = Ok tt /\
  shared_vec (snd r) = seqZ 0 1000 /\
  length (live_heap (blocks (snd r))) = 2%nat.
Proof. vm_compute. split_and!; reflexivity. Qed.

(** With the second thread releasing the buffer that the first is copying
    from, the first thread's read is a use after free and the example does
    not reach its joins. *)
Lemma vector_race_crash :
  let r := tsan_vector_race_example crash_schedule initial_state in
  fst r = Fault (UseAfterFree 0%nat) /\
  spawns (history (snd r)) = [T1; T2] /\
  joins (history (snd r)) = [] /\
  pushes_by T1 (history (snd r)) = [0; 1] /\
  pushes_by T2 (history (snd r)) = [0].
Proof. vm_compute. split_and!; reflexivity. Qed.

(** C7: under every schedule each threading example creates two threads,
    [T1] then [T2], and joins them in that order, the second join being the
    last thing before the caller reads the counter.

    [tsan_data_race_example] always returns.  Between the creation of the
    first thread and the last join its trace holds nothing but plain loads
    and stores on the counter by these two threads; each thread makes every
    step of its body before it is joined; the caller reads the counter after
    the second join and prints the value it read.

    [tsan_vector_race_example] prints nothing.  When it returns, its trace
    between the creation of the first thread and the last join holds nothing
    but steps of the two threads (calls of [push_back] and the allocations,
    releases, reads and writes these make), and each thread has made its
    thousand calls, in order, before it is joined.  When a step fails, no
    second join is recorded and each thread has made the first of its calls.

    No step excludes another thread: the value left in the counter depends
    on the schedule (increments are lost), and so does the fate of the
    vector example (all elements kept, elements lost, or a use after
    free). *)
Theorem threading_examples_two_unsynchronised_tasks (sch : schedule) (s : state) :
  (exists (a c : list memop) (b : list (tid * memop)),
     fst (tsan_data_race_example sch s) = Ok tt /\
     events_of (tsan_data_race_example sch) s =
       [ESpawn T1] ++ map (EShared T1) a ++ [ESpawn T2] ++ shared_events b ++
       [EJoin T1] ++ map (EShared T2) c ++ [EJoin T2] ++
       [EShared MAIN LoadCounter] /\
     map kind_of a ++ kinds_by T1 b = increments 100000 /\
     kinds_by T2 b ++ map kind_of c = increments 100000 /\
     Forall (fun x => fst x = T1 \/ fst x = T2) b /\
     spawns (events_of (tsan_data_race_example sch) s) = [T1; T2] /\
     joins (events_of (tsan_data_race_example sch) s) = [T1; T2] /\
     out (snd (tsan_data_race_example sch s)) =
       out s +:+ "Counter value: " +:+
       string_of_Z (shared_counter (snd (tsan_data_race_example sch s))) +:+ nl) /\
  (out (snd (tsan_vector_race_example sch s)) = out s /\
   match fst (tsan_vector_race_example sch s) with
   | Ok _ =>
       exists a b c : list event,
         events_of (tsan_vector_race_example sch) s =
           [ESpawn T1] ++ a ++ [ESpawn T2] ++ b ++ [EJoin T1] ++ c ++ [EJoin T2] /\
         forallb (step_of T1) a = true /\
         forallb (fun e => step_of T1 e || step_of T2 e) b = true /\
         forallb (step_of T2) c = true /\
         pushes_by T1 (a ++ b) = seqZ 0 1000 /\
         pushes_by T2 (b ++ c) = seqZ 0 1000 /\
         spawns (events_of (tsan_vector_race_example sch) s) = [T1; T2] /\
         joins (events_of (tsan_vector_race_example sch) s) = [T1; T2]
   | Fault _ =>
       exists evs : list event,
         events_of (tsan_vector_race_example sch) s = [ESpawn T1] ++ evs /\
         spawns evs `prefix_of` [T2] /\
         joins evs `prefix_of` [T1] /\
         pushes_by T1 evs `prefix_of` seqZ 0 1000 /\
         pushes_by T2 evs `prefix_of` seqZ 0 1000
   end) /\
  (shared_counter (snd (tsan_data_race_example sequential_schedule initial_state))
     = 200000 /\
   shared_counter (snd (tsan_data_race_example racy_schedule initial_state))
     = 100000 /\
   (fst (tsan_vector_race_example sequential_schedule initial_state) = Ok tt /\
    shared_vec (snd (tsan_vector_race_example sequential_schedule initial_state))
      = seqZ 0 1000 ++ seqZ 0 1000) /\
   (fst (tsan_vector_race_example racy_schedule initial_state) = Ok tt /\
    shared_vec (snd (tsan_vector_race_example racy_schedule initial_state))
      = seqZ 0 1000) /\
   (fst (tsan_vector_race_example crash_schedule initial_state)
      = Fault (UseAfterFree 0%nat) /\
    joins (history (snd (tsan_vector_race_example crash_schedule initial_state)))
      = [])).
Proof.
  split; [| split].
  - destruct (after_threads_spec _ _ sch s shape_tsan_data_race_increment)
      as (a & c & b & Hh & Hk1 & Hk2 & Hf & Ho).
    assert (E : events_of (tsan_data_race_example sch) s =
       [ESpawn T1] ++ map (EShared T1) a ++ [ESpawn T2] ++ shared_events b ++
       [EJoin T1] ++ map (EShared T2) c ++ [EJoin T2] ++
       [EShared MAIN LoadCounter]).
    { apply events_of_history. rewrite tsan_data_race_example_run.
      cbn [snd]. rewrite history_set_out, history_log, Hh.
      rewrite <- !app_assoc. reflexivity. }
    exists a, c, b. rewrite E.
    rewrite !spawns_app, !joins_app, !spawns_thread, !joins_thread,
      !spawns_shared, !joins_shared.
    rewrite tsan_data_race_example_run. cbn [fst snd].
    repeat split; try assumption.
    cbn [out set_out shared_counter log]. by rewrite Ho.
  - destruct (tsan_vector_race_example_spec sch s) as [Ho Hv].
    split; [exact Ho |].
    destruct (fst (tsan_vector_race_example sch s)) as [[]|e].
    + destruct Hv as (a & b & c & Hh & Fa & Fb & Fc & P1 & P2).
      apply events_of_history in Hh.
      destruct (spawns_steps T1 a Fa) as [Sa Ja].
      destruct (spawns_either b Fb) as [Sb Jb].
      destruct (spawns_steps T2 c Fc) as [Sc Jc].
      exists a, b, c. rewrite Hh.
      rewrite !spawns_app, !joins_app, Sa, Ja, Sb, Jb, Sc, Jc.
      split_and!; done.
    + destruct Hv as (evs & Hh & Hv). apply events_of_history in Hh.
      exists evs. split; [exact Hh | exact Hv].
  - destruct data_race_sequential as [H1 _].
    destruct data_race_lost_update as [H2 _].
    destruct vector_race_sequential as (H3 & H4 & _).
    destruct vector_race_lost_elements as (H5 & H6 & _).
    destruct vector_race_crash as (H7 & _ & H8 & _).
    exact (conj H1 (conj H2 (conj (conj H3 H4) (conj (conj H5 H6) (conj H7 H8))))).
Qed.

(** * Further properties *)

(** ** The routines without threads, one by one *)

Lemma append_nil_r (a : string) : a +:+ "" = a.
Proof.
  induction a as [|x a IH]; [reflexivity |].
  change (String x (a +:+ "") = String x a). by rewrite IH.
Qed.

Lemma state_eta (s : state) :
  {| blocks := blocks s; shared_counter := shared_counter s;
     shared_vec := shared_vec s; vec_hdr := vec_hdr s;
     byte_base := byte_base s; out := out s; trace := trace s;
     reports := reports s |} = s.
Proof. by destruct s. Qed.

Ltac run_sequential :=
  unfold_ops; repeat step;
  unfold apply_effect, set_out, set_blocks, log, add_report;
  cbn -[String.append uninit Z.mul];
  rewrite ?app_nil_r, ?append_nil_r, ?append_assoc, ?state_eta;
  reflexivity.

Lemma ubsan_invalid_cast_run (s : state) :
  ubsan_invalid_cast s =
    (Ok tt,
     set_out (((out s +:+ "Invalid cast: ") +:+ "1078523331") +:+ nl)
       (log (ERead TInt (Ptr (length (blocks s)) 0))
          (log (EDecl (length (blocks s)) 4)
             (set_blocks
                (blocks s ++ [mkBlock Stack true (encode TFloat float_3_14)]) s)))).
Proof.
  unfold ubsan_invalid_cast. unfold_ops. step. reflexivity.
Qed.

Lemma ubsan_misaligned_pointer_run (s : state) :
  let b := length (blocks s) in
  let data := map Some (c_string "123456789") in
  ubsan_misaligned_pointer s =
    if (byte_base s + 1) mod 4 =? 0
    then (Ok tt,
          set_blocks
            (blocks s ++
               [mkBlockAt (byte_base s) Stack true (splice data 1 (encode TInt 42))])
            (log (EWrite TInt (Ptr b 1)) (log (EDecl b 10) s)))
    else (Fault (Misaligned (byte_base s + 1) 4),
          log (EWrite TInt (Ptr b 1))
            (log (EDecl b 10)
               (set_blocks (blocks s ++ [mkBlockAt (byte_base s) Stack true data]) s))).
Proof.
  unfold ubsan_misaligned_pointer. unfold_ops. step.
  change (0 * 1 + 1 * 1) with 1.
  destruct (_ =? _); [| reflexivity].
  match goal with |- context [?a <? 1 + 4] => change (a <? 1 + 4) with false end.
  step. reflexivity.
Qed.

Lemma sequential_effect_run (r : routine) (sch : schedule) (s : state) (e : effect) :
  sequential_effect r (length (blocks s)) (byte_base s) = Some e ->
  call r sch s = (e_result e, apply_effect e s).
Proof.
  intros H. destruct r; cbn [sequential_effect] in H;
    try discriminate H.
  all: try (rewrite ubsan_misaligned_pointer_run; cbv zeta in H |- *;
            destruct (_ =? _)).
  all: injection H as <-; cbn [call e_result].
  all: first
    [ rewrite ubsan_invalid_cast_run
    | match goal with |- (_, _) = _ => idtac end
    | match goal with |- ?f ?x = _ => unfold f end; cbv zeta ].
  all: run_sequential.
Qed.

(** ** Invariants of two threads *)

Lemma exec_blocks (t : tid) (op : memop) (s : state) :
  blocks (snd (exec t op s)) = blocks s.
Proof.
  destruct op; cbn; try reflexivity.
  destruct (incr_int old) as [r [|]]; reflexivity.
Qed.

(** A property of the two thread bodies and the state that every step of
    either thread keeps, and that the records of thread creation and join
    keep, holds when both threads have been joined. *)
Section TwoThreads.

Variable P : thr -> thr -> state -> Prop.

Hypothesis P_spawn : forall b1 b2 s t, P b1 b2 s -> P b1 b2 (log (ESpawn t) s).
Hypothesis P_join : forall b1 b2 s t, P b1 b2 s -> P b1 b2 (log (EJoin t) s).
Hypothesis P_step1 : forall op k b2 s,
  P (Act op k) b2 s -> P (k (fst (exec T1 op s))) b2 (snd (exec T1 op s)).
Hypothesis P_step2 : forall op k b1 s,
  P b1 (Act op k) s -> P b1 (k (fst (exec T2 op s))) (snd (exec T2 op s)).

Lemma run_steps_inv (n : nat) :
  forall b1 b2 s,
    P b1 b2 s ->
    P (fst (run_steps n T1 b1 s)) b2 (snd (run_steps n T1 b1 s)).
Proof using P_step1.
  induction n as [|n IH]; intros b1 b2 s H.
  - by destruct b1.
  - destruct b1 as [|op k]; [exact H |].
    cbn [run_steps]. specialize (P_step1 op k b2 s H).
    destruct (exec T1 op s) as [v s1]. by apply IH.
Qed.

Lemma run_thr_first_inv (b1 : thr) :
  forall b2 s, P b1 b2 s -> P Done b2 (run_thr T1 b1 s).
Proof using P_step1.
  induction b1 as [|op k IH]; intros b2 s H; [exact H |].
  cbn [run_thr]. specialize (P_step1 op k b2 s H).
  destruct (exec T1 op s) as [v s1]. by apply IH.
Qed.

Lemma run_thr_second_inv (b2 : thr) :
  forall b1 s, P b1 b2 s -> P b1 Done (run_thr T2 b2 s).
Proof using P_step2.
  induction b2 as [|op k IH]; intros b1 s H; [exact H |].
  cbn [run_thr]. specialize (P_step2 op k b1 s H).
  destruct (exec T2 op s) as [v s1]. by apply IH.
Qed.

Lemma interleave_inv (ps : list bool) :
  forall b1 b2 s,
    P b1 b2 s ->
    P Done (fst (interleave ps b1 b2 s)) (snd (interleave ps b1 b2 s)).
Proof using P_step1 P_step2.
  induction ps as [|[|] ps IH]; intros b1 b2 s H.
  - cbn. by apply run_thr_first_inv.
  - destruct b1 as [|op k]; [exact H |].
    cbn [interleave]. specialize (P_step1 op k b2 s H).
    destruct (exec T1 op s) as [v s1]. by apply IH.
  - destruct b2 as [|op k]; [by apply IH |].
    cbn [interleave]. specialize (P_step2 op k b1 s H).
    destruct (exec T2 op s) as [v s1]. by apply IH.
Qed.

Lemma after_threads_inv (f : thr) (sch : schedule) (s : state) :
  P f f s -> P Done Done (after_threads f sch s).
Proof using P_spawn P_join P_step1 P_step2.
  intros H. unfold after_threads.
  apply P_join. apply run_thr_second_inv. apply P_join.
  apply interleave_inv. apply P_spawn.
  apply run_steps_inv. by apply P_spawn.
Qed.

End TwoThreads.

Lemma after_threads_blocks (f : thr) (sch : schedule) (s : state) :
  blocks (after_threads f sch s) = blocks s.
Proof.
  apply (after_threads_inv (fun _ _ s' => blocks s' = blocks s)); try done.
  - intros op k b2 s1 H. by rewrite exec_blocks.
  - intros op k b1 s1 H. by rewrite exec_blocks.
Qed.

(** ** The counter under every schedule *)

Lemma incr_thread_loop (n : nat) (i : Z) :
  incr_thread (for_loop n i (fun _ r => incr_shared_counter r) Done) n None.
Proof.
  revert i. induction n as [|n IH]; intros i; cbn [for_loop].
  - constructor.
  - unfold incr_shared_counter. apply it_load. intros v.
    apply it_store. intros _. apply IH.
Qed.

Lemma incr_int_in_range (v : Z) :
  Int.INT_MIN <= v + 1 -> v + 1 <= Int.INT_MAX -> incr_int v = (v + 1, false).
Proof.
  intros H1 H2. unfold incr_int, Int.in_range.
  apply Z.leb_le in H1, H2. by rewrite H1, H2.
Qed.

Lemma pending_ok_mono (N c0 rest rest' : Z) (n : nat) (p : option Z) :
  rest' <= rest -> pending_ok N c0 rest n p -> pending_ok N c0 rest' n p.
Proof.
  intros Hle. destruct p as [v|]; [| done].
  intros (H1 & H2 & H3). repeat split; [lia | lia | exact H3].
Qed.

Lemma counter_inv_sym (N c0 : Z) (R0 : list violation) (v0 : list Z)
    (b1 b2 : thr) (s : state) :
  counter_inv N c0 R0 v0 b1 b2 s -> counter_inv N c0 R0 v0 b2 b1 s.
Proof.
  intros (n1 & p1 & n2 & p2 & H1 & H2 & L1 & L2 & Hlo & Hhi & Ha & Hc
            & Q1 & Q2 & HR & HV).
  exists n2, p2, n1, p1.
  replace (Z.of_nat n2 + Z.of_nat n1) with (Z.of_nat n1 + Z.of_nat n2) by lia.
  split_and!; assumption.
Qed.

(** One step of the first of two incrementing threads. *)
Lemma counter_inv_step (N c0 : Z) (R0 : list violation) (v0 : list Z) (t : tid)
    (op : memop) (k : Z -> thr) (b2 : thr) (s : state) :
  2 <= N -> Int.INT_MIN <= c0 -> c0 + 2 * N <= Int.INT_MAX ->
  counter_inv N c0 R0 v0 (Act op k) b2 s ->
  counter_inv N c0 R0 v0 (k (fst (exec t op s))) b2 (snd (exec t op s)).
Proof.
  intros HN Hmin Hmax
    (n1 & p1 & n2 & p2 & H1 & H2 & L1 & L2 & Hlo & Hhi & Ha & Hc
       & Q1 & Q2 & HR & HV).
  inversion H1 as [| n k' Hk | n v k' Hk]; subst.
  - (* the load *)
    cbn -[Z.mul Z.add Z.of_nat].
    exists (S n), (Some (shared_counter s)), n2, p2.
    split_and!; try assumption; try apply Hk; try reflexivity; try lia.
    unfold pending_ok. split_and!; lia.
  - (* the store *)
    destruct Q1 as (V1 & V2 & V3).
    cbn [exec]. rewrite incr_int_in_range by lia.
    cbn -[Z.mul Z.add Z.of_nat].
    exists n, None, n2, p2.
    split_and!;
      cbn [shared_counter set_shared_counter log reports shared_vec];
      try assumption; try apply Hk; try reflexivity; try lia; try exact I.
    eapply pending_ok_mono; [| exact Q2]. lia.
Qed.

Lemma counter_inv_done (N c0 : Z) (R0 : list violation) (v0 : list Z) (s : state) :
  counter_inv N c0 R0 v0 Done Done s ->
  c0 + 2 <= shared_counter s <= c0 + 2 * N /\
  reports s = R0 /\ shared_vec s = v0.
Proof.
  intros (n1 & p1 & n2 & p2 & H1 & H2 & L1 & L2 & Hlo & Hhi & Ha & Hc
            & Q1 & Q2 & HR & HV).
  inversion H1; inversion H2; subst.
  split_and!; try reflexivity; lia.
Qed.

(** Two threads that increment the counter [N] times each, under any
    schedule. *)
Lemma after_threads_counter (N : Z) (sch : schedule) (s : state) :
  2 <= N ->
  Int.INT_MIN <= shared_counter s ->
  shared_counter s + 2 * N <= Int.INT_MAX ->
  let f := for_loop (Z.to_nat N) 0 (fun _ r => incr_shared_counter r) Done in
  shared_counter s + 2 <= shared_counter (after_threads f sch s)
    <= shared_counter s + 2 * N /\
  reports (after_threads f sch s) = reports s /\
  shared_vec (after_threads f sch s) = shared_vec s.
Proof.
  intros HN Hmin Hmax f.
  apply (counter_inv_done N (shared_counter s)).
  apply (after_threads_inv
           (counter_inv N (shared_counter s) (reports s) (shared_vec s))).
  - intros b1 b2 s1 t H. exact H.
  - intros b1 b2 s1 t H. exact H.
  - intros op k b2 s1 H. by apply counter_inv_step.
  - intros op k b1 s1 H. apply counter_inv_sym.
    apply counter_inv_step; [assumption .. |]. by apply counter_inv_sym.
  - exists (Z.to_nat N), None, (Z.to_nat N), None.
    split_and!; try apply incr_thread_loop; try exact I; try reflexivity; lia.
Qed.

(** For every schedule and every start state in which the counter is an
    [int] with room for 200000 increments, [tsan_data_race_example] leaves
    the counter at least 2 and at most 200000 above its start value; no
    increment overflows, and the routine touches neither the vector nor the
    memory blocks. *)
Theorem tsan_data_race_counter_bounds (sch : schedule) (s : state) :
  Int.INT_MIN <= shared_counter s ->
  shared_counter s + 200000 <= Int.INT_MAX ->
  shared_counter s + 2 <= shared_counter (snd (tsan_data_race_example sch s))
    <= shared_counter s + 200000 /\
  reports (snd (tsan_data_race_example sch s)) = reports s /\
  shared_vec (snd (tsan_data_race_example sch s)) = shared_vec s /\
  blocks (snd (tsan_data_race_example sch s)) = blocks s.
Proof.
  intros Hmin Hmax.
  rewrite tsan_data_race_example_run. cbn [snd].
  assert (H2 : 2 <= 100000) by discriminate.
  destruct (after_threads_counter 100000 sch s H2 Hmin Hmax) as (Hc & Hr & Hv).
  pose proof (after_threads_blocks tsan_data_race_increment sch s) as Hb.
  split_and!.
  - apply Hc.
  - apply Hc.
  - exact Hr.
  - exact Hv.
  - exact Hb.
Qed.

Lemma tsan_data_race_counter_bounds_witness :
  shared_counter initial_state + 2
    <= shared_counter (snd (tsan_data_race_example racy_schedule initial_state))
    <= shared_counter initial_state + 200000 /\
  reports (snd (tsan_data_race_example racy_schedule initial_state))
    = reports initial_state /\
  shared_vec (snd (tsan_data_race_example racy_schedule initial_state))
    = shared_vec initial_state /\
  blocks (snd (tsan_data_race_example racy_schedule initial_state))
    = blocks initial_state.
Proof.
  apply (tsan_data_race_counter_bounds racy_schedule initial_state).
  - vm_compute. discriminate.
  - vm_compute. discriminate.
Defined.

(** ** The catalog as a whole *)

Lemma sequential_effect_cases (r : routine) (sch : schedule) (s : state) :
  match sequential_effect r (length (blocks s)) (byte_base s) with
  | Some e => call r sch s = (e_result e, apply_effect e s)
  | None => category_of r = Threading \/ r = R_ubsan_signed_overflow
  end.
Proof.
  destruct (sequential_effect r (length (blocks s)) (byte_base s)) as [e|] eqn:E.
  - by apply sequential_effect_run.
  - destruct r; try discriminate E; try (by left); try (by right).
    cbn [sequential_effect] in E. by destruct (_ =? _).
Qed.

(** Each of the thirteen routines without threads that stop at their first
    violation, or have none, has from every start state the result and the
    effect that [sequential_effect] lists: the fault it stops at (or its
    return), the one block it creates, if any, with its final contents, its
    memory operations in order and the text it prints.  The outcome of
    [ubsan_misaligned_pointer] depends on where its array is placed.  The
    globals are left as they are. *)
Theorem sequential_routines_effect (r : routine) (sch : schedule) (s : state) :
  match sequential_effect r (length (blocks s)) (byte_base s) with
  | Some e => call r sch s = (e_result e, apply_effect e s)
  | None => category_of r = Threading \/ r = R_ubsan_signed_overflow
  end.
Proof.
  destruct (sequential_effect r (length (blocks s)) (byte_base s)) as [e|] eqn:E.
  - by apply sequential_effect_run.
  - destruct r; try discriminate E; try (by left); try (by right).
    cbn [sequential_effect] in E. by destruct (_ =? _).
Qed.

Lemma history_apply_effect (e : effect) (s : state) :
  history (apply_effect e s) = history s ++ e_events e.
Proof.
  unfold history, apply_effect. cbn [trace].
  by rewrite rev_app_distr, rev_involutive.
Qed.

Lemma sequential_effect_blocks (r : routine) (b : block_id) (base : Z) (e : effect) :
  sequential_effect r b base = Some e ->
  (length (e_blocks e) <= 1)%nat /\
  live_heap (e_blocks e) =
    if bool_decide (r = R_asan_memory_leak)
    then [mkBlock Heap true (uninit (1000 * sizeof TInt))] else [].
Proof.
  intros H. destruct r; try discriminate H; cbn [sequential_effect] in H;
    try destruct (_ =? _); injection H as <-; split; cbn; (lia || reflexivity).
Qed.

(** The blocks after a routine other than the vector example: those that
    existed, unchanged, and what the routine has created. *)
Lemma call_blocks (r : routine) (sch : schedule) (s : state) :
  r <> R_tsan_vector_race_example ->
  blocks (snd (call r sch s)) =
    blocks s ++ match sequential_effect r (length (blocks s)) (byte_base s) with
                | Some e => e_blocks e
                | None => []
                end.
Proof.
  intros Hr. pose proof (sequential_effect_cases r sch s) as H.
  destruct (sequential_effect r (length (blocks s)) (byte_base s)) as [e|].
  - by rewrite H.
  - rewrite app_nil_r. destruct r; try (by destruct H); cbn [call].
    rewrite tsan_data_race_example_run. cbn [snd]. apply after_threads_blocks.
Qed.

(** A routine other than [tsan_vector_race_example] only adds to the
    blocks: under every schedule and from every start state, the blocks
    that existed are still there unchanged, followed by at most one new
    block.  The vector example is different: from the state at process
    start, with the first thread run to its end before the second is
    created, it creates twelve blocks, the buffers of the vector. *)
Theorem routines_only_add (r : routine) (sch : schedule) (s : state) :
  r <> R_tsan_vector_race_example ->
  (exists new : list block,
     blocks (snd (call r sch s)) = blocks s ++ new /\ (length new <= 1)%nat) /\
  length (blocks (snd (tsan_vector_race_example sequential_schedule initial_state)))
    = 12%nat.
Proof.
  intros Hr. split; [| by destruct vector_race_sequential as (_ & _ & _ & _ & H)].
  rewrite (call_blocks r sch s Hr).
  destruct (sequential_effect r (length (blocks s)) (byte_base s)) as [e|] eqn:E.
  - exists (e_blocks e). split; [reflexivity |].
    by destruct (sequential_effect_blocks _ _ _ _ E).
  - exists []. split; [reflexivity | cbn; lia].
Qed.

Lemma routines_only_add_witness :
  (exists new : list block,
     blocks (snd (call R_asan_memory_leak sequential_schedule initial_state)) =
       blocks initial_state ++ new /\ (length new <= 1)%nat) /\
  length (blocks (snd (tsan_vector_race_example sequential_schedule initial_state)))
    = 12%nat.
Proof.
  apply (routines_only_add R_asan_memory_leak sequential_schedule initial_state).
  discriminate.
Defined.

(** Among the routines other than [tsan_vector_race_example],
    [asan_memory_leak] is the only one that leaves a heap allocation behind:
    it adds one live block of 4000 bytes to the live heap blocks, and every
    other one, under every schedule, leaves them as they were.  The vector
    example leaves the buffer of the vector behind: from the state at
    process start it is one live block when the first thread runs to its end
    before the second is created, and two when both threads are inside their
    first call at once. *)
Theorem heap_left_by_routines (r : routine) (sch : schedule) (s : state) :
  r <> R_tsan_vector_race_example ->
  live_heap (blocks (snd (call r sch s))) =
    live_heap (blocks s) ++
    (if bool_decide (r = R_asan_memory_leak)
     then [mkBlock Heap true (uninit (1000 * sizeof TInt))] else []) /\
  length (live_heap (blocks (snd
    (tsan_vector_race_example sequential_schedule initial_state)))) = 1%nat /\
  length (live_heap (blocks (snd
    (tsan_vector_race_example racy_schedule initial_state)))) = 2%nat.
Proof.
  intros Hr. split_and!.
  - rewrite (call_blocks r sch s Hr). unfold live_heap at 1. rewrite filter_app.
    f_equal.
    destruct (sequential_effect r (length (blocks s)) (byte_base s)) as [e|] eqn:E.
    + by destruct (sequential_effect_blocks _ _ _ _ E).
    + destruct r; try discriminate E; reflexivity.
  - destruct vector_race_sequential as (_ & _ & _ & H & _).
    by rewrite <- (length_map b_bytes), H.
  - by destruct vector_race_lost_elements as (_ & _ & H).
Qed.

Lemma heap_left_by_routines_witness :
  live_heap (blocks (snd (call R_asan_memory_leak sequential_schedule initial_state))) =
    live_heap (blocks initial_state) ++
    (if bool_decide (R_asan_memory_leak = R_asan_memory_leak)
     then [mkBlock Heap true (uninit (1000 * sizeof TInt))] else []) /\
  length (live_heap (blocks (snd
    (tsan_vector_race_example sequential_schedule initial_state)))) = 1%nat /\
  length (live_heap (blocks (snd
    (tsan_vector_race_example racy_schedule initial_state)))) = 2%nat.
Proof.
  apply (heap_left_by_routines R_asan_memory_leak sequential_schedule initial_state).
  discriminate.
Defined.

(** ** More routines, one by one *)

(** [asan_use_after_free] allocates, releases, and then writes through the
    released pointer: the write is reported as a use after free before any
    byte changes, so the released block still holds 42; nothing is printed
    and no heap block is left live. *)
Theorem asan_use_after_free_caught (s : state) :
  let b := length (blocks s) in
  let p := Ptr b 0 in
  fst (asan_use_after_free s) = Fault (UseAfterFree b) /\
  events_of asan_use_after_free s = [ENew b 4; EDelete p; EWrite TInt p] /\
  blocks (snd (asan_use_after_free s)) =
    blocks s ++ [mkBlock Heap false [Some 42; Some 0; Some 0; Some 0]] /\
  live_heap (blocks (snd (asan_use_after_free s))) = live_heap (blocks s) /\
  out (snd (asan_use_after_free s)) = out s.
Proof.
  intros b p.
  pose proof (sequential_effect_run R_asan_use_after_free (mkSchedule 0 []) s _
                eq_refl) as H.
  cbn [call e_result] in H.
  assert (E : events_of asan_use_after_free s = [ENew b 4; EDelete p; EWrite TInt p]).
  { apply events_of_history. rewrite H. cbn [snd]. apply history_apply_effect. }
  rewrite E, H. cbn [fst snd apply_effect blocks out e_blocks e_text].
  split_and!; try reflexivity.
  - unfold live_heap. rewrite filter_app. cbn. by rewrite app_nil_r.
  - apply append_nil_r.
Qed.

(** [ubsan_array_bounds] reads index 10 of an array of five [int]: the
    guarded indexing reports the index and the length and nothing is
    printed.  On the array as declared, the indices 0 to 4 read back the
    initialisers 1 to 5, and the indices next to the bounds, -1 and 5, are
    reported like index 10. *)
Theorem ubsan_array_bounds_guard (s : state) :
  let arr := mkArray (length (blocks s)) TInt 5 in
  let s1 := snd (decl_array_init TInt [1; 2; 3; 4; 5] s) in
  fst (decl_array_init TInt [1; 2; 3; 4; 5] s) = Ok arr /\
  fst (ubsan_array_bounds s) = Fault (OutOfBounds 10 5) /\
  out (snd (ubsan_array_bounds s)) = out s /\
  map (fun i => fst (array_get arr i s1)) [0; 1; 2; 3; 4] =
    [Ok 1; Ok 2; Ok 3; Ok 4; Ok 5] /\
  map (fun i => fst (array_get arr i s1)) [-1; 5; 10] =
    [Fault (OutOfBounds (-1) 5); Fault (OutOfBounds 5 5);
     Fault (OutOfBounds 10 5)].
Proof.
  intros arr s1.
  pose proof (sequential_effect_run R_ubsan_array_bounds (mkSchedule 0 []) s _
                eq_refl) as H.
  cbn [call e_result] in H. rewrite H.
  cbn [fst snd apply_effect out e_text]. rewrite append_nil_r.
  split_and!; try reflexivity.
  subst s1 arr. unfold_ops. cbn [map]. repeat step. reflexivity.
Qed.

(** [ubsan_misaligned_pointer] stores an [int] through [data + 1].  A
    [char] array needs no alignment, so whether the store is misaligned
    depends on the address at which [data] is placed: with [data] at [base]
    modulo 4, the store is reported as misaligned, and the ten bytes keep the
    string, unless [base + 1] is a multiple of 4.  On the array as declared,
    a store of an [int] at byte offset [k] is reported as misaligned when
    [base + k] is not a multiple of 4, inside the array or not; an aligned
    store is accepted when its four bytes are inside the array and reported
    as out of the block otherwise.  With [data] at an address that is 2
    modulo 4, the stores at the offsets 2 and 6 are accepted and those at
    0, 4 and 8 are misaligned. *)
Theorem ubsan_misaligned_pointer_guard (s : state) :
  let b := length (blocks s) in
  let base := byte_base s in
  let data := map Some [49; 50; 51; 52; 53; 54; 55; 56; 57; 0] in
  let s1 := snd (decl_array_init TChar (c_string "123456789") s) in
  let s2 :=
    snd (decl_array_init TChar (c_string "123456789") (set_byte_base 2 s)) in
  fst (ubsan_misaligned_pointer s) =
    (if (base + 1) mod 4 =? 0 then Ok tt
     else Fault (Misaligned (base + 1) 4)) /\
  blocks (snd (ubsan_misaligned_pointer s)) =
    blocks s ++
    [mkBlockAt base Stack true
       (if (base + 1) mod 4 =? 0 then splice data 1 (encode TInt 42) else data)] /\
  (forall k : Z,
     fst (store TInt (Ptr b k) 42 s1) =
       if negb ((base + k) mod 4 =? 0) then Fault (Misaligned (base + k) 4)
       else if (k <? 0) || (10 <? k + 4) then Fault (OutOfRange b k 4)
       else Ok tt) /\
  map (fun k => fst (store TInt (Ptr b k) 42 s2)) [0; 2; 4; 6; 8] =
    [Fault (Misaligned 2 4); Ok tt; Fault (Misaligned 6 4); Ok tt;
     Fault (Misaligned 10 4)].
Proof.
  intros b base data s1 s2.
  rewrite ubsan_misaligned_pointer_run. fold base.
  split_and!.
  - by destruct (_ =? _).
  - by destruct (_ =? _).
  - intros k. subst s1 b base. unfold_ops. repeat step.
    destruct (negb _); [reflexivity |].
    match goal with
    | |- context [size_of_bytes ?l] => change (size_of_bytes l) with 10
    end.
    destruct (_ || _); reflexivity.
  - subst s2 b. unfold_ops. cbn [map]. repeat step. reflexivity.
Qed.

(** [ubsan_invalid_cast] returns: reading the [float] 3.14f through an
    [int] pointer yields its bit pattern, 0x4048F5C3, which the routine
    prints in decimal; the four bytes of [f] are the pattern, least
    significant byte first. *)
Theorem ubsan_invalid_cast_reads_bits (s : state) :
  let b := length (blocks s) in
  fst (ubsan_invalid_cast s) = Ok tt /\
  out (snd (ubsan_invalid_cast s)) =
    out s +:+ "Invalid cast: " +:+ string_of_Z float_3_14 +:+ nl /\
  string_of_Z float_3_14 = "1078523331" /\
  events_of ubsan_invalid_cast s = [EDecl b 4; ERead TInt (Ptr b 0)] /\
  blocks (snd (ubsan_invalid_cast s)) =
    blocks s ++ [mkBlock Stack true [Some 0xC3; Some 0xF5; Some 0x48; Some 0x40]] /\
  reports (snd (ubsan_invalid_cast s)) = reports s.
Proof.
  intros b.
  assert (E : events_of ubsan_invalid_cast s = [EDecl b 4; ERead TInt (Ptr b 0)]).
  { apply events_of_history. rewrite ubsan_invalid_cast_run. solve_history. }
  rewrite E, ubsan_invalid_cast_run. cbn [fst snd].
  split_and!; try reflexivity.
  cbn [out set_out]. by rewrite !append_assoc.
Qed.

(** ** Threads that do not overlap *)

Lemma run_steps_enough (t : tid) (b : thr) (l : list opkind) :
  shape b l ->
  forall (n : nat) (s : state),
    (length l <= n)%nat -> run_steps n t b s = (Done, run_thr t b s).
Proof.
  induction 1 as [|op k l Hk IH]; intros n s Hn.
  - by destruct n.
  - destruct n as [|n]; [cbn in Hn; lia |].
    cbn [run_steps run_thr]. destruct (exec t op s) as [v s1].
    apply IH. cbn in Hn. lia.
Qed.

Lemma length_increments (n : nat) :
  length (concat (replicate n [KLoad; KStore])) = (2 * n)%nat.
Proof. induction n as [|n IH]; cbn in *; lia. Qed.

Lemma shape_increment_loop (n : nat) (i : Z) :
  shape (for_loop n i (fun _ r => incr_shared_counter r) Done)
    (concat (replicate n [KLoad; KStore])).
Proof.
  rewrite <- (app_nil_r (concat _)).
  apply (shape_for_loop (fun _ rest => incr_shared_counter rest)).
  - intros _ rest l. apply shape_incr_shared_counter.
  - constructor.
Qed.

(** A thread that increments alone loses nothing. *)
Lemma run_thr_alone (t : tid) (N K : Z) (b : thr) (n : nat) (p : option Z) :
  Int.INT_MIN <= K - N -> K <= Int.INT_MAX ->
  incr_thread b n p ->
  forall s : state,
    Z.of_nat n <= N ->
    match p with
    | None => shared_counter s + Z.of_nat n = K
    | Some v => v + Z.of_nat n = K
    end ->
    shared_counter (run_thr t b s) = K /\
    reports (run_thr t b s) = reports s.
Proof.
  intros Hmin Hmax. induction 1 as [| n k Hk IH | n v k Hk IH]; intros s Hn Hp.
  - cbn. split; [lia | reflexivity].
  - cbn [run_thr exec].
    destruct (IH (shared_counter (log (EShared t LoadCounter) s))
                (log (EShared t LoadCounter) s) Hn Hp) as [E1 E2].
    by rewrite E1, E2.
  - cbn [run_thr exec]. rewrite incr_int_in_range by lia.
    match goal with
    | |- context [run_thr t (k ?u) ?s1] =>
        destruct (IH u s1) as [E1 E2]; [lia | cbn; lia |]
    end.
    by rewrite E1, E2.
Qed.

Lemma alone_inv_step (N K : Z) (R0 : list violation) (op : memop)
    (k : Z -> thr) (b1 : thr) (s : state) :
  Int.INT_MIN <= K - N -> K <= Int.INT_MAX ->
  alone_inv N K R0 b1 (Act op k) s ->
  alone_inv N K R0 b1 (k (fst (exec T2 op s))) (snd (exec T2 op s)).
Proof.
  intros Hmin Hmax (Hd & n & p & H & Hn & Hp & HR).
  split; [exact Hd |].
  inversion H as [| m k' Hk | m v k' Hk]; subst.
  - exists (S m), (Some (shared_counter s)).
    cbn [exec fst snd]. split_and!; try apply Hk; try assumption; reflexivity.
  - exists m, None.
    cbn [exec]. rewrite incr_int_in_range by lia.
    cbn [fst snd]. split_and!; try apply Hk; try reflexivity; cbn; lia.
Qed.

(** Two threads that increment [N] times each, when the first makes all its
    steps before the second is created. *)
Lemma after_threads_no_overlap (N : Z) (sch : schedule) (s : state) :
  0 <= N ->
  Int.INT_MIN <= shared_counter s ->
  shared_counter s + 2 * N <= Int.INT_MAX ->
  2 * N <= Z.of_nat (head_start sch) ->
  let f := for_loop (Z.to_nat N) 0 (fun _ r => incr_shared_counter r) Done in
  shared_counter (after_threads f sch s) = shared_counter s + 2 * N /\
  reports (after_threads f sch s) = reports s.
Proof.
  intros HN Hmin Hmax Hh f. unfold after_threads.
  rewrite (run_steps_enough T1 f _ (shape_increment_loop _ _))
    by (rewrite length_increments; lia).
  cbn [fst snd].
  destruct (run_thr_alone T1 N (shared_counter s + N) f (Z.to_nat N) None)
    with (s := log (ESpawn T1) s) as [C1 R1];
    [lia | lia | apply incr_thread_loop | lia | cbn; lia |].
  set (s1 := run_thr T1 f (log (ESpawn T1) s)) in *.
  assert (HI : alone_inv N (shared_counter s + 2 * N) (reports s) Done
                 (fst (interleave (picks sch) Done f (log (ESpawn T2) s1)))
                 (snd (interleave (picks sch) Done f (log (ESpawn T2) s1)))).
  { apply interleave_inv.
    - intros op k b2 s0 [Hd _]. discriminate Hd.
    - intros op k b1 s0 H. apply alone_inv_step; [lia | lia | exact H].
    - split; [reflexivity |].
      exists (Z.to_nat N), None.
      split_and!; [apply incr_thread_loop | lia | cbn; lia | exact R1]. }
  destruct HI as (_ & n & p & H & Hn & Hp & HR).
  destruct (interleave (picks sch) Done f (log (ESpawn T2) s1)) as [b2 s2].
  cbn [fst snd] in *.
  destruct (run_thr_alone T2 N (shared_counter s + 2 * N) b2 n p)
    with (s := log (EJoin T1) s2) as [C2 R2];
    [lia | lia | exact H | exact Hn | exact Hp |].
  cbn [shared_counter reports log] in *. rewrite C2, R2. by split.
Qed.

(** When the first thread of [tsan_data_race_example] makes its 200000
    steps before the second is created, no increment is lost: from a counter
    with room for them, the counter ends exactly 200000 higher, nothing
    overflows, and that value is printed. *)
Theorem tsan_data_race_no_overlap (sch : schedule) (s : state) :
  Int.INT_MIN <= shared_counter s ->
  shared_counter s + 200000 <= Int.INT_MAX ->
  200000 <= Z.of_nat (head_start sch) ->
  shared_counter (snd (tsan_data_race_example sch s)) = shared_counter s + 200000 /\
  reports (snd (tsan_data_race_example sch s)) = reports s /\
  out (snd (tsan_data_race_example sch s)) =
    out s +:+ "Counter value: " +:+ string_of_Z (shared_counter s + 200000) +:+ nl.
Proof.
  intros Hmin Hmax Hh.
  assert (H0 : 0 <= 100000) by discriminate.
  destruct (after_threads_no_overlap 100000 sch s H0 Hmin Hmax Hh) as [Hc Hr].
  destruct (after_threads_spec _ _ sch s shape_tsan_data_race_increment)
    as (_ & _ & _ & _ & _ & _ & _ & Ho).
  rewrite tsan_data_race_example_run.
  cbn [snd shared_counter reports out set_out log].
  split_and!.
  - exact Hc.
  - exact Hr.
  - rewrite Ho.
    replace (shared_counter (after_threads tsan_data_race_increment sch s))
      with (shared_counter s + 200000) by (symmetry; exact Hc).
    reflexivity.
Qed.

Lemma tsan_data_race_no_overlap_witness :
  shared_counter
    (snd (tsan_data_race_example (mkSchedule (Z.to_nat 200000) []) initial_state))
    = shared_counter initial_state + 200000 /\
  reports
    (snd (tsan_data_race_example (mkSchedule (Z.to_nat 200000) []) initial_state))
    = reports initial_state /\
  out (snd (tsan_data_race_example (mkSchedule (Z.to_nat 200000) []) initial_state))
    = out initial_state +:+ "Counter value: " +:+
      string_of_Z (shared_counter initial_state + 200000) +:+ nl.
Proof.
  apply (tsan_data_race_no_overlap (mkSchedule (Z.to_nat 200000) []) initial_state).
  - vm_compute. discriminate.
  - vm_compute. discriminate.
  - vm_compute. discriminate.
Defined.

(** The operations of the two threading examples. *)
(** ** Increment of an [int] *)

(** [x++] on an [int] overflows at [INT_MAX] only: there it yields
    [INT_MIN] and the overflow is reported; for every other [int] it yields
    [x + 1], which is an [int], and nothing is reported. *)
Theorem int_incr_overflows_only_at_max (x : Z) (s : state) :
  Int.in_range x = true ->
  int_incr x s =
    (if x =? Int.INT_MAX
     then (Ok Int.INT_MIN, add_report (SignedOverflow x) s)
     else (Ok (x + 1), s)) /\
  Int.in_range (fst (incr_int x)) = true.
Proof.
  intros H. unfold Int.in_range in H.
  apply andb_true_iff in H as [H1 H2]. apply Z.leb_le in H1, H2.
  unfold int_incr, incr_int.
  destruct (x =? Int.INT_MAX) eqn:E.
  - apply Z.eqb_eq in E. subst x. split; reflexivity.
  - apply Z.eqb_neq in E.
    assert (R : Int.in_range (x + 1) = true).
    { unfold Int.in_range. apply andb_true_iff. split; apply Z.leb_le.
      - unfold Int.INT_MIN in *. lia.
      - unfold Int.INT_MAX in *. lia. }
    rewrite R. split; [reflexivity | exact R].
Qed.

Lemma int_incr_overflows_only_at_max_witness :
  int_incr 41 initial_state =
    (if 41 =? Int.INT_MAX
     then (Ok Int.INT_MIN, add_report (SignedOverflow 41) initial_state)
     else (Ok (41 + 1), initial_state)) /\
  Int.in_range (fst (incr_int 41)) = true.
Proof.
  apply (int_incr_overflows_only_at_max 41 initial_state).
  reflexivity.
Defined.

(** ** A thread alone keeps the vector *)

Lemma decode_encode_bytes (n : nat) :
  forall v : Z, decode_bytes (encode_bytes n v) = v mod 2 ^ (8 * Z.of_nat n).
Proof.
  induction n as [|n IH]; intros v.
  - cbn. by rewrite Z.mod_1_r.
  - cbn [encode_bytes decode_bytes]. rewrite IH.
    change 255 with (Z.ones 8). rewrite Z.land_ones by lia.
    rewrite Z.shiftr_div_pow2, Z.shiftl_mul_pow2 by lia.
    assert (Hb : 0 <= v mod 2 ^ 8 < 2 ^ 8) by (apply Z.mod_pos_bound; lia).
    assert (Hm : 0 <= (v / 2 ^ 8) mod 2 ^ (8 * Z.of_nat n))
      by (apply Z.mod_pos_bound; apply Z.pow_pos_nonneg; lia).
    assert (Hl : Z.land (v mod 2 ^ 8)
                   ((v / 2 ^ 8) mod 2 ^ (8 * Z.of_nat n) * 2 ^ 8) = 0).
    { apply Z.bits_inj'. intros i Hi. rewrite Z.land_spec, Z.bits_0.
      destruct (Z.lt_ge_cases i 8) as [Hlt | Hge].
      - rewrite Z.mul_pow2_bits_low by lia. apply andb_false_r.
      - rewrite Z.mod_pow2_bits_high by lia. reflexivity. }
    rewrite <- Z.lxor_lor, <- Z.add_nocarry_lxor by exact Hl.
    replace (8 * Z.of_nat (S n)) with (8 + 8 * Z.of_nat n) by lia.
    rewrite Z.pow_add_r by lia.
    rewrite (Z.rem_mul_r v (2 ^ 8) (2 ^ (8 * Z.of_nat n)))
      by (try apply Z.pow_pos_nonneg; lia).
    lia.
Qed.

(** An [int] read back from its bytes is the [int] stored. *)
Lemma decode_encode_int (v : Z) :
  Int.in_range v = true -> decode TInt (encode_bytes 4 v) = v.
Proof.
  unfold Int.in_range, Int.INT_MIN, Int.INT_MAX. intros H.
  apply andb_prop in H as [H1%Z.leb_le H2%Z.leb_le].
  cbn [decode]. rewrite decode_encode_bytes.
  unfold Int.wrap, Int.INT_MIN, Int.modulus, Int.width.
  change (2 ^ (8 * Z.of_nat 4)) with (2 ^ 32).
  replace (v mod 2 ^ 32 - -2147483648) with (v mod 2 ^ 32 + 2147483648) by lia.
  rewrite Z.add_mod_idemp_l by lia.
  rewrite Z.mod_small; lia.
Qed.

Lemma all_init_Some (bs : list Z) : all_init (map Some bs) = Some bs.
Proof. induction bs as [|b bs IH]; [reflexivity |]. cbn. by rewrite IH. Qed.

Lemma length_encode_int (v : Z) : length (encode TInt v) = 4%nat.
Proof. reflexivity. Qed.

Lemma length_ints (l : list Z) : length (ints l) = (4 * length l)%nat.
Proof.
  unfold ints. induction l as [|x l IH]; [reflexivity |].
  cbn [map concat length]. rewrite length_app, IH, length_encode_int. lia.
Qed.

Lemma ints_app (l1 l2 : list Z) : ints (l1 ++ l2) = ints l1 ++ ints l2.
Proof. unfold ints. by rewrite map_app, concat_app. Qed.

Lemma ints_one (v : Z) : ints [v] = encode TInt v.
Proof. unfold ints. cbn [map concat]. apply app_nil_r. Qed.

Lemma aligned_offset (k : nat) :
  ((0 + (0 + Z.of_nat k * 4)) mod 4 =? 0) = true.
Proof. apply Z.eqb_eq. rewrite !Z.add_0_l. apply Z_mod_mult. Qed.

(** A store of an [int] over element [k] of a live block of [int]s. *)
Lemma store_int (s : state) (b : block_id) (pre old post : list mbyte)
    (v : Z) (k : nat) :
  blocks s !! b = Some (mkBlock Heap true (pre ++ old ++ post)) ->
  length pre = (4 * k)%nat -> length old = 4%nat ->
  store TInt (Ptr b (0 + Z.of_nat k * 4)) v s =
    (Ok tt,
     set_blocks (<[b := mkBlock Heap true (pre ++ encode TInt v ++ post)]> (blocks s))
       (log (EWrite TInt (Ptr b (0 + Z.of_nat k * 4))) s)).
Proof.
  intros Hb Hpre Hold.
  unfold store, store_checked, check_access, bind, modify, gets, ret, fault.
  cbn [blocks log]. rewrite Hb.
  cbn [mkBlock b_live b_base b_bytes b_region negb alignof sizeof].
  rewrite aligned_offset. cbn [negb].
  assert (Hr : (0 + Z.of_nat k * 4 <? 0) ||
               (size_of_bytes (pre ++ old ++ post) <? 0 + Z.of_nat k * 4 + 4) = false).
  { apply orb_false_intro; apply Z.ltb_ge; [lia |].
    unfold size_of_bytes. rewrite !length_app, Hpre, Hold. lia. }
  rewrite Hr. unfold mkBlock.
  cbn [blocks log b_base b_region b_live b_bytes]. do 4 f_equal.
  replace (Z.to_nat (0 + Z.of_nat k * 4)) with (length pre) by lia.
  unfold splice. rewrite take_app_length. do 2 f_equal.
  rewrite length_encode_int, <- Hold, <- drop_drop, drop_app_length.
  apply drop_app_length.
Qed.

(** A load of element [k] of a live block of [int]s. *)
Lemma load_int (s : state) (b : block_id) (pre post : list mbyte)
    (x : Z) (k : nat) :
  blocks s !! b = Some (mkBlock Heap true (pre ++ encode TInt x ++ post)) ->
  length pre = (4 * k)%nat -> Int.in_range x = true ->
  load TInt (Ptr b (0 + Z.of_nat k * 4)) s =
    (Ok x, log (ERead TInt (Ptr b (0 + Z.of_nat k * 4))) s).
Proof.
  intros Hb Hpre Hx.
  unfold load, load_checked, check_access, bind, modify, gets, ret, fault.
  cbn [blocks log]. rewrite Hb.
  cbn [mkBlock b_live b_base b_bytes b_region negb alignof sizeof].
  rewrite aligned_offset. cbn [negb].
  assert (Hr : (0 + Z.of_nat k * 4 <? 0) ||
               (size_of_bytes (pre ++ encode TInt x ++ post)
                  <? 0 + Z.of_nat k * 4 + 4) = false).
  { apply orb_false_intro; apply Z.ltb_ge; [lia |].
    unfold size_of_bytes. rewrite !length_app, Hpre, length_encode_int. lia. }
  rewrite Hr. unfold mkBlock. cbn [b_bytes].
  replace (Z.to_nat (0 + Z.of_nat k * 4)) with (length pre) by lia.
  rewrite drop_app_length.
  change (Z.to_nat 4) with (length (encode TInt x)).
  rewrite take_app_length. unfold encode. rewrite all_init_Some.
  by rewrite decode_encode_int.
Qed.

Lemma ints_cons (x : Z) (l : list Z) : ints (x :: l) = encode TInt x ++ ints l.
Proof. reflexivity. Qed.

(** The elements still to be moved are moved, one by one, into the room
    that the new buffer has for them. *)
Lemma vrun_vcopy (t : tid) (b nb : block_id) (rest : vprog)
    (post tail : list mbyte) (todo : list Z) :
  forall (done : list Z) (s : state),
    b <> nb ->
    Forall (fun v => Int.in_range v = true) todo ->
    blocks s !! b = Some (mkBlock Heap true (ints (done ++ todo) ++ post)) ->
    blocks s !! nb =
      Some (mkBlock Heap true
              (ints done ++ repeat None (4 * length todo) ++ tail)) ->
    exists s' : state,
      vrun t (vcopy (length todo) (Z.of_nat (length done)) (Ptr b 0) (Ptr nb 0) rest) s
        = vrun t rest s' /\
      vec_hdr s' = vec_hdr s /\
      blocks s' =
        <[nb := mkBlock Heap true (ints (done ++ todo) ++ tail)]> (blocks s).
Proof.
  induction todo as [|x todo IH]; intros done s Hne Hin Hb Hnb.
  - exists s. cbn [length vcopy]. rewrite app_nil_r in *.
    split_and!; try reflexivity. symmetry. by apply list_insert_id.
  - apply Forall_cons in Hin as [Hx Hin].
    cbn [length vcopy vrun vexec ptr_add sizeof]. unfold bind.
    rewrite ints_app, ints_cons, <- !app_assoc in Hb.
    rewrite (load_int s b _ _ x (length done) Hb (length_ints done) Hx).
    cbn [length] in Hnb.
    replace (4 * S (length todo))%nat with (4 + 4 * length todo)%nat in Hnb by lia.
    rewrite repeat_app, <- app_assoc in Hnb.
    cbv beta iota.
    rewrite (store_int (log (ERead TInt (Ptr b (0 + Z.of_nat (length done) * 4))) s)
               nb _ _ _ x (length done) Hnb (length_ints done)
               (repeat_length _ _)).
    unfold ret. cbv beta iota.
    match goal with |- context [vrun t _ ?s2] => set (s1 := s2) end.
    destruct (IH (done ++ [x]) s1) as (s' & Hrun & Hhdr & Hbl).
    + exact Hne.
    + exact Hin.
    + subst s1. cbn [blocks set_blocks log].
      rewrite list_lookup_insert_ne by (intros ->; by apply Hne).
      rewrite !ints_app, ints_one, <- !app_assoc. exact Hb.
    + subst s1. cbn [blocks set_blocks log].
      rewrite list_lookup_insert_eq by (by apply lookup_lt_Some in Hnb).
      by rewrite ints_app, ints_one, <- !app_assoc.
    + exists s'. split_and!.
      * rewrite <- Hrun. rewrite length_app, Nat2Z.inj_add. reflexivity.
      * rewrite Hhdr. reflexivity.
      * rewrite Hbl. subst s1. cbn [blocks set_blocks log].
        rewrite list_insert_insert_eq. by rewrite <- app_assoc.
Qed.

Lemma uninit_ints (n : nat) : uninit (Z.of_nat n * 4) = repeat None (4 * n).
Proof. unfold uninit. f_equal. lia. Qed.

Lemma vexec_alloc (t : tid) (len : Z) (s : state) :
  vexec t (OAlloc len) s =
    (Ok (Ptr (length (blocks s)) 0, 0, 0),
     log (ENew (length (blocks s)) (len * 4))
       (set_blocks (blocks s ++ [mkBlock Heap true (uninit (len * 4))]) s)).
Proof. reflexivity. Qed.

Lemma vexec_store (t : tid) (s : state) (b : block_id)
    (pre old post : list mbyte) (v : Z) (k : nat) :
  blocks s !! b = Some (mkBlock Heap true (pre ++ old ++ post)) ->
  length pre = (4 * k)%nat -> length old = 4%nat ->
  vexec t (OStore (Ptr b 0) (Z.of_nat k) v) s =
    (Ok no_result,
     set_blocks (<[b := mkBlock Heap true (pre ++ encode TInt v ++ post)]> (blocks s))
       (log (EWrite TInt (Ptr b (0 + Z.of_nat k * 4))) s)).
Proof.
  intros Hb Hpre Hold. cbn [vexec ptr_add sizeof]. unfold bind.
  by rewrite (store_int s b pre old post v k Hb Hpre Hold).
Qed.

Lemma vexec_free (t : tid) (s : state) (b : block_id) (bytes : list mbyte) :
  blocks s !! b = Some (mkBlock Heap true bytes) ->
  vexec t (OFree (Ptr b 0)) s =
    (Ok no_result,
     set_blocks (<[b := mkBlock Heap false bytes]> (blocks s))
       (log (EDelete (Ptr b 0)) s)).
Proof.
  intros Hb. cbn [vexec]. unfold delete, bind, modify, gets, ret, fault.
  cbn [blocks log]. by rewrite Hb.
Qed.

(** A call of [push_back] by a thread that runs alone appends its element
    to the vector, in the room that is left or in a new buffer. *)
Lemma vrun_push_back (t : tid) (v : Z) (rest : vprog) (l : list Z) (s : state) :
  holds l s -> Int.in_range v = true ->
  exists s' : state,
    vrun t (push_back_steps v rest) s = vrun t rest s' /\ holds (l ++ [v]) s'.
Proof.
  intros (Hin & Hsize & Hst) Hv.
  assert (Hin' : Forall (fun v => Int.in_range v = true) (l ++ [v])).
  { apply Forall_app. split; [exact Hin | by constructor]. }
  unfold push_back_steps. cbn [vrun vexec].
  unfold bind, modify, gets, ret. cbv beta iota.
  set (s0 := log (EShared t (PushBack v)) s).
  change (vec_hdr s0) with (vec_hdr s).
  assert (Hs0 : blocks s0 = blocks s) by reflexivity.
  destruct (vec_hdr s) as [start n cap] eqn:Hh.
  cbn [v_start v_size v_cap] in *. subst n.
  destruct start as [|b off].
  - destruct Hst as [-> ->].
    change (negb (Z.of_nat (length []) =? 0)) with false. cbv beta iota zeta.
    cbn [vrun]. rewrite vexec_alloc. cbv beta iota.
    set (nb := length (blocks s0)).
    set (s1 := log (ENew _ _) _).
    assert (H1 : blocks s1 !! nb = Some (mkBlock Heap true ([] ++ repeat None 4 ++ []))).
    { subst s1 nb. cbn [blocks set_blocks log]. by rewrite lookup_fresh. }
    cbn [vrun].
    rewrite (vexec_store t s1 nb [] _ [] v (length (@nil Z)) H1 eq_refl eq_refl).
    cbv beta iota. cbn [vcopy Z.to_nat length vrun vexec].
    unfold bind, modify, ret. cbv beta iota.
    eexists. split; [reflexivity |].
    split; [exact Hin' |].
    cbn [vec_hdr set_vec_hdr v_size v_start v_cap blocks set_blocks log length app].
    split; [reflexivity |]. split; [reflexivity |].
    exists 0%nat. split; [reflexivity |].
    rewrite list_lookup_insert_eq by (by apply lookup_lt_Some in H1).
    by rewrite ints_one, app_nil_r.
  - destruct Hst as (-> & room & -> & Hb).
    destruct room as [|room].
    + (* the buffer is full *)
      rewrite Nat.add_0_r, Z.eqb_refl. cbn [negb]. cbv beta iota zeta.
      cbn [vrun]. rewrite vexec_alloc. cbv beta iota.
      set (nb := length (blocks s0)).
      set (m := (Nat.max (length l) 1 - 1)%nat).
      assert (Hlen : Z.of_nat (length l) + Z.max (Z.of_nat (length l)) 1 =
                     Z.of_nat (length l + S m)) by lia.
      rewrite !Hlen, uninit_ints.
      replace (4 * (length l + S m))%nat
        with (4 * length l + (4 + 4 * m))%nat by lia.
      rewrite !repeat_app.
      set (s1 := log (ENew _ _) _).
      assert (Hne : b <> nb)
        by (apply lookup_lt_Some in Hb; subst nb; rewrite Hs0; lia).
      assert (H1 : blocks s1 !! nb =
                   Some (mkBlock Heap true
                           (repeat None (4 * length l) ++ repeat None 4 ++
                            repeat None (4 * m)))).
      { subst s1 nb. cbn [blocks set_blocks log]. by rewrite lookup_fresh. }
      cbn [vrun].
      rewrite (vexec_store t s1 nb _ _ _ v (length l) H1 (repeat_length _ _)
                 (repeat_length _ _)).
      cbv beta iota. rewrite Nat2Z.id.
      set (s2 := set_blocks _ _).
      destruct (vrun_vcopy t b nb
                  (VAct (OFree (Ptr b 0))
                     (fun _ => VAct (OPublish (Ptr nb 0) (Z.of_nat (length l) + 1)
                                       (Z.of_nat (length l + S m)))
                                 (fun _ => rest)))
                  (repeat None (4 * 0)) (encode TInt v ++ repeat None (4 * m))
                  l [] s2 Hne Hin) as (s3 & Hrun & Hhdr & Hbl).
      { subst s2 s1. cbn [blocks set_blocks log app].
        rewrite list_lookup_insert_ne by (intros ->; by apply Hne).
        rewrite Hs0, lookup_app_l by (by apply lookup_lt_Some in Hb). exact Hb. }
      { subst s2. cbn [blocks set_blocks log app ints concat map].
        by rewrite list_lookup_insert_eq by (by apply lookup_lt_Some in H1). }
      cbn [length] in Hrun. change (Z.of_nat 0) with 0 in Hrun.
      rewrite Hrun. cbn [vrun].
      assert (H3 : blocks s3 !! b =
                   Some (mkBlock Heap true (ints l ++ repeat None (4 * 0)))).
      { rewrite Hbl. subst s2 s1. cbn [blocks set_blocks log].
        rewrite !list_lookup_insert_ne by (intros ->; by apply Hne).
        rewrite Hs0, lookup_app_l by (by apply lookup_lt_Some in Hb). exact Hb. }
      rewrite (vexec_free t s3 b _ H3). cbv beta iota. cbn [vrun vexec].
      unfold bind, modify, ret. cbv beta iota.
      eexists. split; [reflexivity |].
      split; [exact Hin' |].
      cbn [vec_hdr set_vec_hdr v_size v_start v_cap blocks set_blocks log].
      split; [rewrite length_app; cbn [length]; lia |]. split; [reflexivity |].
      exists m. split; [rewrite length_app; cbn [length]; lia |].
      rewrite list_lookup_insert_ne by exact Hne.
      rewrite Hbl, list_lookup_insert_eq.
      * cbn [app]. by rewrite ints_app, ints_one, <- app_assoc.
      * subst s2. cbn [blocks set_blocks]. rewrite length_insert.
        by apply lookup_lt_Some in H1.
    + (* there is room *)
      assert (Hneq : (Z.of_nat (length l) =? Z.of_nat (length l + S room)) = false)
        by (apply Z.eqb_neq; lia).
      rewrite Hneq. cbn [negb]. cbv beta iota. cbn [vrun].
      replace (4 * S room)%nat with (4 + 4 * room)%nat in Hb by lia.
      rewrite repeat_app in Hb.
      rewrite (vexec_store t s0 b _ _ _ v (length l) Hb (length_ints l)
                 (repeat_length _ _)).
      cbv beta iota. cbn [vrun vexec]. unfold bind, modify, ret. cbv beta iota.
      eexists. split; [reflexivity |].
      split; [exact Hin' |].
      unfold set_size. subst s0.
      cbn [vec_hdr set_vec_hdr v_size v_start v_cap blocks set_blocks log].
      rewrite Hh. cbn [v_start v_cap].
      split; [rewrite length_app; cbn [length]; lia |]. split; [reflexivity |].
      exists room. split; [rewrite length_app; cbn [length]; lia |].
      rewrite list_lookup_insert_eq by (by apply lookup_lt_Some in Hb).
      by rewrite ints_app, ints_one, <- app_assoc.
Qed.

Lemma read_ints_ints (l : list Z) (rest : list mbyte) :
  Forall (fun v => Int.in_range v = true) l ->
  read_ints (length l) (ints l ++ rest) = l.
Proof.
  induction 1 as [|x l Hx Hl IH]; [reflexivity |].
  rewrite ints_cons, <- app_assoc. cbn [length read_ints].
  change 4%nat with (length (encode TInt x)) at 1 3.
  rewrite take_app_length, drop_app_length. unfold encode at 1.
  rewrite all_init_Some. cbn [length encode_bytes Z.to_nat sizeof Pos.to_nat
    Pos.iter_op Init.Nat.add Nat.eqb].
  change (decode TInt (encode_bytes 4 x) :: read_ints (length l) (ints l ++ rest)
          = x :: l).
  by rewrite decode_encode_int, IH.
Qed.

(** The elements a reader finds are the elements the vector holds. *)
Lemma holds_vec_elems (l : list Z) (s : state) :
  holds l s -> vec_elems (vec_hdr s) (blocks s) = l.
Proof.
  intros (Hin & Hsize & Hst). unfold vec_elems.
  destruct (v_start (vec_hdr s)) as [|b off].
  - by destruct Hst as [_ ->].
  - destruct Hst as (-> & room & _ & ->).
    cbn [mkBlock b_live b_bytes]. rewrite Hsize, Nat2Z.id.
    change (Z.to_nat 0) with 0%nat. rewrite drop_0.
    by apply read_ints_ints.
Qed.

Lemma in_range_intro (i : Z) :
  Int.INT_MIN <= i <= Int.INT_MAX -> Int.in_range i = true.
Proof.
  intros [H1 H2]. unfold Int.in_range.
  apply andb_true_intro. split; by apply Z.leb_le.
Qed.

(** The loop of [tsan_vector_race], run alone on a vector that holds [l],
    returns and leaves a vector that holds [l] followed by the elements
    appended. *)
Lemma vrun_append_loop (t : tid) (n : nat) :
  forall (i : Z) (l : list Z) (s : state),
    holds l s -> 0 <= i -> i + Z.of_nat n <= Int.INT_MAX + 1 ->
    exists s' : state,
      vrun t (expand (for_loop n i (fun i rest => Act (PushBack i) (fun _ => rest))
                        Done)) s = (Ok tt, s') /\
      holds (l ++ seqZ i (Z.of_nat n)) s'.
Proof.
  induction n as [|n IH]; intros i l s Hl Hi Hn.
  - exists s. cbn [for_loop expand vrun]. rewrite seqZ_nil, app_nil_r by lia. done.
  - cbn [for_loop expand].
    destruct (vrun_push_back t i
                (expand (for_loop n (i + 1)
                           (fun i rest => Act (PushBack i) (fun _ => rest)) Done))
                l s Hl) as (s1 & Hrun & H1).
    { apply in_range_intro. unfold Int.INT_MIN. lia. }
    destruct (IH (i + 1) (l ++ [i]) s1 H1) as (s' & Hrun' & H'); [lia | lia |].
    exists s'. split; [by rewrite Hrun |].
    rewrite Nat2Z.inj_succ, seqZ_cons by lia.
    replace (Z.pred (Z.succ (Z.of_nat n))) with (Z.of_nat n) by lia.
    by rewrite <- app_assoc in H'.
Qed.

Lemma vrun_tsan_vector_race (t : tid) (l : list Z) (s : state) :
  holds l s ->
  exists s' : state,
    vrun t (expand tsan_vector_race) s = (Ok tt, s') /\
    holds (l ++ seqZ 0 1000) s'.
Proof.
  intros Hl. apply (vrun_append_loop t 1000 0 l s Hl); [lia |].
  unfold Int.INT_MAX. lia.
Qed.

(** Some steps of a thread and then the rest are the thread run to its
    end. *)
Lemma vrun_steps_vrun (n : nat) (t : tid) :
  forall (p : vprog) (s : state),
    match vrun_steps n t p s with
    | (Ok p', s') => vrun t p' s'
    | (Fault e, s') => (Fault e, s')
    end = vrun t p s.
Proof.
  induction n as [|n IH]; intros p s; [by destruct p |].
  destruct p as [|o k]; [reflexivity |]. cbn [vrun_steps vrun].
  destruct (vexec t o s) as [[r|e] s1]; [apply IH | reflexivity].
Qed.

(** The trace is written, never read: with another trace an operation has
    the same result, and the same effect on the rest of the state. *)
Lemma store_set_trace (t : ctype) (p : ptr) (v : Z) (s : state) (tr : list event) :
  exists tr' : list event,
    store t p v (set_trace tr s) =
      (fst (store t p v s), set_trace tr' (snd (store t p v s))).
Proof.
  unfold store, store_checked, check_access. unfold_ops.
  destruct p as [|b off]; cbn; [eauto |].
  repeat case_match; simplify_eq; cbn; eauto.
Qed.

Lemma load_set_trace (t : ctype) (p : ptr) (s : state) (tr : list event) :
  exists tr' : list event,
    load t p (set_trace tr s) =
      (fst (load t p s), set_trace tr' (snd (load t p s))).
Proof.
  unfold load, load_checked, check_access. unfold_ops.
  destruct p as [|b off]; cbn; [eauto |].
  repeat case_match; simplify_eq; cbn; eauto.
Qed.

Lemma delete_set_trace (p : ptr) (s : state) (tr : list event) :
  exists tr' : list event,
    delete p (set_trace tr s) =
      (fst (delete p s), set_trace tr' (snd (delete p s))).
Proof.
  unfold delete. unfold_ops. destruct p as [|b off]; cbn; [eauto |].
  repeat case_match; simplify_eq; cbn; eauto.
Qed.

Lemma vexec_trace (t : tid) (o : vop) (s : state) (tr : list event) :
  exists tr' : list event,
    vexec t o (set_trace tr s) =
      (fst (vexec t o s), set_trace tr' (snd (vexec t o s))).
Proof.
  destruct o as [op|v|p i v|from to i|len|p|n|p n cap]; cbn [vexec].
  - destruct op; cbn; eauto.
    destruct (incr_int old) as [r [|]]; cbn; eauto.
  - cbn. eauto.
  - unfold bind, ret.
    destruct (store_set_trace TInt (ptr_add TInt p i) v s tr) as (tr1 & ->).
    destruct (store TInt (ptr_add TInt p i) v s) as [[[]|e] s1]; cbn; eauto.
  - unfold bind, ret.
    destruct (load_set_trace TInt (ptr_add TInt from i) s tr) as (tr1 & ->).
    destruct (load TInt (ptr_add TInt from i) s) as [[x|e] s1]; cbn [fst snd];
      [| eauto].
    destruct (store_set_trace TInt (ptr_add TInt to i) x s1 tr1) as (tr2 & ->).
    destruct (store TInt (ptr_add TInt to i) x s1) as [[[]|e] s2]; cbn; eauto.
  - cbn. eauto.
  - unfold bind, ret.
    destruct (delete_set_trace p s tr) as (tr1 & ->).
    destruct (delete p s) as [[[]|e] s1]; cbn; eauto.
  - cbn. eauto.
  - cbn. eauto.
Qed.

Lemma vrun_trace (t : tid) (p : vprog) :
  forall (s : state) (tr : list event),
    exists tr' : list event,
      vrun t p (set_trace tr s) =
        (fst (vrun t p s), set_trace tr' (snd (vrun t p s))).
Proof.
  induction p as [|o k IH]; intros s tr; cbn [vrun]; [by exists tr |].
  destruct (vexec_trace t o s tr) as (tr1 & ->).
  destruct (vexec t o s) as [[r|e] s1]; cbn [fst snd]; [apply IH | by exists tr1].
Qed.

Lemma holds_set_trace (l : list Z) (tr : list event) (s : state) :
  holds l s -> holds l (set_trace tr s).
Proof. intros H. exact H. Qed.

Lemma log_set_trace (e : event) (s : state) :
  log e s = set_trace (e :: trace s) s.
Proof. reflexivity. Qed.

(** A thread that runs [tsan_vector_race] alone, on a vector that holds
    [l]: every step of its thousand calls succeeds, the vector then holds
    [l] followed by 0, 1, ... 999, and the elements a reader finds in the
    buffer are the value that the calls give when each is one step. *)
Theorem tsan_vector_race_alone (t : tid) (l : list Z) (s : state) :
  holds l s -> shared_vec s = l ->
  fst (vrun t (expand tsan_vector_race) s) = Ok tt /\
  holds (l ++ seqZ 0 1000) (snd (vrun t (expand tsan_vector_race) s)) /\
  vec_elems (vec_hdr (snd (vrun t (expand tsan_vector_race) s)))
            (blocks (snd (vrun t (expand tsan_vector_race) s))) =
    shared_vec (run_thr t tsan_vector_race s).
Proof.
  intros Hl Hv.
  destruct (vrun_tsan_vector_race t l s Hl) as (s' & -> & Hl').
  cbn [fst snd]. split; [reflexivity |]. split; [exact Hl' |].
  rewrite (holds_vec_elems _ _ Hl').
  destruct (run_thr_append_loop t 1000 0 Done s) as (s1 & H1 & H2 & _).
  change (run_thr t tsan_vector_race s = run_thr t Done s1) in H1.
  rewrite H1. cbn [run_thr]. by rewrite H2, Hv.
Qed.

Lemma tsan_vector_race_alone_witness :
  fst (vrun T1 (expand tsan_vector_race) initial_state) = Ok tt /\
  holds ([] ++ seqZ 0 1000) (snd (vrun T1 (expand tsan_vector_race) initial_state)) /\
  vec_elems (vec_hdr (snd (vrun T1 (expand tsan_vector_race) initial_state)))
            (blocks (snd (vrun T1 (expand tsan_vector_race) initial_state))) =
    shared_vec (run_thr T1 tsan_vector_race initial_state).
Proof.
  apply (tsan_vector_race_alone T1 [] initial_state).
  - split; [constructor |]. split; [reflexivity |]. split; reflexivity.
  - reflexivity.
Defined.

(** When the second thread makes no step before the first has returned,
    whatever the head start of the first, [tsan_vector_race_example]
    returns, and a vector that held [l] holds [l] followed by the thousand
    elements of the first thread and the thousand of the second, which is
    also the value the caller finds. *)
Theorem tsan_vector_race_no_overlap (sch : schedule) (l : list Z) (s : state) :
  picks sch = [] -> holds l s ->
  fst (tsan_vector_race_example sch s) = Ok tt /\
  shared_vec (snd (tsan_vector_race_example sch s)) =
    l ++ seqZ 0 1000 ++ seqZ 0 1000 /\
  holds (l ++ seqZ 0 1000 ++ seqZ 0 1000) (snd (tsan_vector_race_example sch s)).
Proof.
  intros Hp Hl. rewrite tsan_vector_race_example_run, Hp. cbn [vinterleave].
  destruct (vrun_tsan_vector_race T1 l (log (ESpawn T1) s) Hl) as (sa & Ha & Hla).
  pose proof (vrun_steps_vrun (head_start sch) T1 (expand tsan_vector_race)
                (log (ESpawn T1) s)) as Hs.
  rewrite Ha in Hs.
  destruct (vrun_steps _ _ _ _) as [[p1|e] s2]; [| discriminate Hs].
  rewrite log_set_trace.
  destruct (vrun_trace T1 p1 s2 (ESpawn T2 :: trace s2)) as (tr1 & ->).
  rewrite Hs. cbn [fst snd].
  rewrite log_set_trace.
  destruct (vrun_tsan_vector_race T2 (l ++ seqZ 0 1000)
              (set_trace (EJoin T1 :: trace (set_trace tr1 sa)) (set_trace tr1 sa)))
    as (sb & Hb & Hlb).
  { by apply holds_set_trace, holds_set_trace. }
  rewrite Hb. rewrite <- app_assoc in Hlb.
  unfold sync_vec, modify. cbn [fst snd shared_vec set_shared_vec].
  split; [reflexivity |]. split; [| exact Hlb].
  change (vec_elems (vec_hdr sb) (blocks sb) = l ++ seqZ 0 1000 ++ seqZ 0 1000).
  by apply holds_vec_elems.
Qed.

Lemma tsan_vector_race_no_overlap_witness :
  fst (tsan_vector_race_example sequential_schedule initial_state) = Ok tt /\
  shared_vec (snd (tsan_vector_race_example sequential_schedule initial_state)) =
    [] ++ seqZ 0 1000 ++ seqZ 0 1000 /\
  holds ([] ++ seqZ 0 1000 ++ seqZ 0 1000)
    (snd (tsan_vector_race_example sequential_schedule initial_state)).
Proof.
  apply (tsan_vector_race_no_overlap sequential_schedule [] initial_state).
  - reflexivity.
  - split; [constructor |]. split; [reflexivity |]. split; reflexivity.
Defined.
